(** * Tour of Heroes: data-access service, heroes list view and search pipeline

    A shallow embedding of

      - [HeroService]           (hero.service.ts: the REST facade with its
                                 log-and-recover error policy),
      - [HeroesComponent]       (heroes.component.ts: the collection view),
      - [HeroSearchComponent]   (hero-search.component.ts: the debounced,
                                 de-duplicated, switch-mapped search stream),

    together with the properties the specification states about them.

    Conventions.  A JavaScript string is its sequence of UTF-16 code units.
    A [Hero] value is an object reference; the code never writes to a hero
    object, so the store of objects is a fixed map from references to their
    fields.  A number is kept as the text a template literal renders it to.
    Time is virtual, in milliseconds. *)

From Stdlib Require Import List NArith ZArith Lia Bool String Ascii DecimalString.
From Stdlib Require Import Sorted.
Import ListNotations.

(* ================================================================= *)
(** ** JavaScript strings *)

Module Js.

Definition jsstring := list N.

Definition lit (s : string) : jsstring :=
  map N_of_ascii (list_ascii_of_string s).

(** [WhiteSpace] and [LineTerminator] code points of ECMAScript, the ones
    [String.prototype.trim] strips; all of them are single code units. *)
Definition is_ws (c : N) : bool :=
  ((9 <=? c) && (c <=? 13) ||
   (c =? 32) || (c =? 160) || (c =? 5760) ||
   (8192 <=? c) && (c <=? 8202) ||
   (c =? 8232) || (c =? 8233) || (c =? 8239) || (c =? 8287) ||
   (c =? 12288) || (c =? 65279))%N.

Fixpoint trimStart (s : jsstring) : jsstring :=
  match s with
  | c :: r => if is_ws c then trimStart r else s
  | [] => []
  end.

Definition trimEnd (s : jsstring) : jsstring := rev (trimStart (rev s)).

Definition trim (s : jsstring) : jsstring := trimEnd (trimStart s).

(** Truthiness of a string: [!s] holds exactly for the empty string. *)
Definition falsy (s : jsstring) : bool :=
  match s with [] => true | _ => false end.

Definition eqb : jsstring -> jsstring -> bool :=
  fix go (a b : jsstring) : bool :=
    match a, b with
    | [], [] => true
    | x :: a', y :: b' => (x =? y)%N && go a' b'
    | _, _ => false
    end.

(** An integer written in decimal, with a minus sign when negative. *)
Definition decimal (n : Z) : jsstring :=
  lit (NilZero.string_of_int (Z.to_int n)).

(** A JavaScript number.  This code never computes with a number: it takes
    one from a route, an argument or a parsed body, passes it on and renders
    it in template literals.  A number is therefore kept as the text
    [Number::toString] gives for it ("42", "0.5", "1e+21", "NaN",
    "-Infinity"), which determines the number up to the sign of zero. *)
Record number : Type := mkNumber { toString : jsstring }.

(** The integer [n] as a number, for the integers a number can hold that
    are below 10^21 in magnitude: those [Number::toString] writes in plain
    decimal. *)
Definition int (n : Z) : number := mkNumber (decimal n).

(** [`${n}`] for a number [n]. *)
Definition show_number (n : number) : jsstring := toString n.

(** [`${v}`] for a value that is a number or [undefined]. *)
Definition show (v : option number) : jsstring :=
  match v with
  | Some n => show_number n
  | None => lit "undefined"
  end.

Fixpoint startsWith (prefix s : jsstring) : bool :=
  match prefix, s with
  | [], _ => true
  | p :: prefix', c :: s' => (p =? c)%N && startsWith prefix' s'
  | _ :: _, [] => false
  end.

End Js.

Import Js.

(** [undefined], where a value of type [T | undefined] is expected. *)
Definition undefined {A : Type} : option A := None.

(* ================================================================= *)
(** ** Data model *)

(** Modelled from the spec: the [Hero] interface of [./hero], which is
    imported by every source file but is not among them.  The spec's data
    model gives it as [{ id: integer (server-assigned, absent until
    created), name: string }]; the code reads [id] as a [number]. *)
Record HeroFields : Type := mkHero {
  id : option number;
  name : jsstring
}.

(** A [Hero] in the program is a reference; [===] and [!==] on heroes
    compare references. *)
Definition Hero := nat.

Definition Store := Hero -> HeroFields.

(** An error value as the handlers use it: only [error.message] is read. *)
Record JsError : Type := mkError { message : jsstring }.

Inductive Method := GET | POST | PUT | DELETE.

(** A request handed to [HttpClient]; [body] is the serialised entity. *)
Record Request : Type := mkRequest {
  method : Method;
  url : jsstring;
  body : option HeroFields;
  json_header : bool
}.

(** What the service acts on: [requests] is the trace of requests
    [HttpClient] has sent, [messages] the content of the message sink,
    [console] the diagnostic channel written by [console.error]. *)
Record World : Type := mkWorld {
  requests : list Request;
  messages : list jsstring;
  console : list JsError
}.

Definition emptyWorld : World := mkWorld [] [] [].

(** Modelled from the spec: [MessageService.add] of [./message.service],
    which is not among the source files; the spec gives it as "a message
    sink with a single operation [add(text)], fire-and-forget,
    append-only". *)
Definition messageService_add (text : jsstring) (w : World) : World :=
  mkWorld (requests w) (messages w ++ [text]) (console w).

Definition console_error (e : JsError) (w : World) : World :=
  mkWorld (requests w) (messages w) (console w ++ [e]).

Definition send (r : Request) (w : World) : World :=
  mkWorld (requests w ++ [r]) (messages w) (console w).

(* ================================================================= *)
(** ** One-shot observables

    Every observable the service builds delivers at most one value:
    [of(v)] (written [of_ v] here), or an [HttpClient] call piped through [tap] and [catchError].
    An [HttpClient] observable is cold: subscribing sends the request, and
    the rest of the chain runs when the transport answers.  [B] is the type
    the transport's body is read at, [T] the type of the value emitted. *)

Inductive Notification (T : Type) : Type :=
| Next (v : T)
| Err (e : JsError).

Arguments Next {T} v.
Arguments Err {T} e.

Inductive Observable (B T : Type) : Type :=
| of_ (v : T)
| throwError (e : JsError)
| effect (f : World -> World) (next : Observable B T)
| request (r : Request) (k : Notification B -> Observable B T).

Arguments of_ {B T} v.
Arguments throwError {B T} e.
Arguments effect {B T} f next.
Arguments request {B T} r k.

(** TypeScript reads a [T] where a [T | undefined] is expected; the
    embedding makes that step explicit. *)
Class Subtype (T U : Type) : Type := upcast : T -> U.

#[export] Instance subtype_refl (T : Type) : Subtype T T := fun x => x.
#[export] Instance subtype_undefined (T : Type) : Subtype T (option T) := Some.

(** The source of an [HttpClient] call: the body on success, the error
    otherwise. *)
Definition http {B : Type} (r : Request) : Observable B B :=
  request r (fun n => match n with Next v => of_ v | Err e => throwError e end).

(** [tap(f)]: run [f] on the value for its side effect, pass everything on. *)
Fixpoint tap {B T : Type} (f : T -> World -> World) (o : Observable B T)
  : Observable B T :=
  match o with
  | of_ v => effect (f v) (of_ v)
  | throwError e => throwError e
  | effect g next => effect g (tap f next)
  | request r k => request r (fun n => tap f (k n))
  end.

(** [catchError(selector)]: on an error, continue with the observable the
    selector returns; the result has the union of the two value types. *)
Fixpoint catchError {B T U : Type} `{Subtype T U}
  (selector : JsError -> Observable B U) (o : Observable B T)
  : Observable B U :=
  match o with
  | of_ v => of_ (upcast v)
  | throwError e => selector e
  | effect g next => effect g (catchError selector next)
  | request r k => request r (fun n => catchError selector (k n))
  end.

(** [source.pipe(op1, op2)]. *)
Definition pipe2 {X Y Z : Type} (source : X) (op1 : X -> Y) (op2 : Y -> Z) : Z :=
  op2 (op1 source).

(** What a subscriber has after the synchronous part of a subscription. *)
Inductive Subscription (B T : Type) : Type :=
| Emitted (v : T)
| Errored (e : JsError)
| Waiting (k : Notification B -> Observable B T).

Arguments Emitted {B T} v.
Arguments Errored {B T} e.
Arguments Waiting {B T} k.

Fixpoint subscribe {B T : Type} (o : Observable B T) (w : World)
  : Subscription B T * World :=
  match o with
  | of_ v => (Emitted v, w)
  | throwError e => (Errored e, w)
  | effect f next => subscribe next (f w)
  | request r k => (Waiting k, send r w)
  end.

(** The transport answers a waiting subscription. *)
Definition resume {B T : Type} (s : Subscription B T) (answer : Notification B)
  (w : World) : Subscription B T * World :=
  match s with
  | Waiting k => subscribe (k answer) w
  | _ => (s, w)
  end.

(** A whole exchange: subscribe, then the transport answers at once. *)
Definition exchange {B T : Type} (o : Observable B T) (answer : Notification B)
  (w : World) : Subscription B T * World :=
  let (s, w1) := subscribe o w in resume s answer w1.

(* ================================================================= *)
(** ** HeroService (hero.service.ts) *)

Module HeroService.
Section Service.

Variable store : Store.

Definition heroesUrl : jsstring := lit "api/heroes".

(** [httpOptions]: the [Content-Type: application/json] header. *)
Definition httpOptions : bool := true.

Definition http_get {B : Type} (u : jsstring) : Observable B B :=
  http (mkRequest GET u None false).

Definition http_put {B : Type} (u : jsstring) (data : HeroFields) (options : bool)
  : Observable B B :=
  http (mkRequest PUT u (Some data) options).

Definition http_post {B : Type} (u : jsstring) (data : HeroFields) (options : bool)
  : Observable B B :=
  http (mkRequest POST u (Some data) options).

Definition http_delete {B : Type} (u : jsstring) (options : bool)
  : Observable B B :=
  http (mkRequest DELETE u None options).

Definition log (msg : jsstring) : World -> World :=
  messageService_add (lit "HeroService: " ++ msg).

(** [handleError<T>(operation, result?)]: report to the console, log
    [`${operation} failed: ${error.message}`], continue with [of(result)]. *)
Definition handleError {B T : Type} (operation : jsstring) (result : T)
  : JsError -> Observable B T :=
  fun error =>
    effect (console_error error)
      (effect (log (operation ++ lit " failed: " ++ message error))
         (of_ result)).

(** [getHeroes()]: the first statement adds its message when the method is
    called; the observable is built afterwards. *)
Definition getHeroes (w : World) : Observable (list Hero) (list Hero) * World :=
  let w := messageService_add (lit "HeroService: fetched heroes") w in
  (pipe2 (http_get heroesUrl)
     (tap (fun _ => log (lit "fetched heroes")))
     (catchError (handleError (lit "getHeroes") [])),
   w).

Definition getHero (id : number) : Observable Hero (option Hero) :=
  let url := heroesUrl ++ lit "/" ++ show_number id in
  pipe2 (http_get url)
    (tap (fun _ => log (lit "fetched hero id=" ++ show_number id)))
    (catchError (handleError (lit "getHero id=" ++ show_number id) undefined)).

Definition updateHero {Any : Type} (hero : Hero) : Observable Any (option Any) :=
  pipe2 (http_put heroesUrl (store hero) httpOptions)
    (tap (fun _ => log (lit "updated hero id=" ++ show (id (store hero)))))
    (catchError (handleError (lit "updateHero") undefined)).

(** [addHero(hero)]: the argument is only serialised as the request body, so
    it is taken by its fields (the caller passes an object literal). *)
Definition addHero (hero : HeroFields) : Observable Hero (option Hero) :=
  pipe2 (http_post heroesUrl hero httpOptions)
    (tap (fun newHero : Hero =>
            log (lit "added hero with id=" ++ show (id (store newHero)))))
    (catchError (handleError (lit "addHero") undefined)).

(** [typeof hero === 'number' ? hero : hero.id] *)
Definition resolve_id (hero : Hero + number) : option number :=
  match hero with
  | inr n => Some n
  | inl h => id (store h)
  end.

Definition deleteHero (hero : Hero + number) : Observable Hero (option Hero) :=
  let id := resolve_id hero in
  let url := heroesUrl ++ lit "/" ++ show id in
  pipe2 (http_delete url httpOptions)
    (tap (fun _ => log (lit "deleted hero id=" ++ show id)))
    (catchError (handleError (lit "deleteHero") undefined)).

Definition quoted (term : jsstring) : jsstring :=
  [34%N] ++ term ++ [34%N].

Definition searchHeroes (term : jsstring) : Observable (list Hero) (list Hero) :=
  if falsy (trim term) then
    of_ []
  else
    pipe2 (http_get (heroesUrl ++ lit "/?name=" ++ term))
      (tap (fun x : list Hero =>
              match List.length x with
              | S _ => log (lit "found heroes matching " ++ quoted term)
              | O => log (lit "no heroes matching " ++ quoted term)
              end))
      (catchError (handleError (lit "searchHeroes") [])).

End Service.
End HeroService.

(* ================================================================= *)
(** ** HeroesComponent (heroes/heroes.component.ts) *)

Module HeroesComponent.
Section Component.

Variable store : Store.

(** [heroes] is declared without an initialiser: it is [undefined] until
    the first list arrives.  Its elements are whatever the subscriptions
    delivered, [undefined] included. *)
Record State : Type := mkState {
  heroes : option (list (option Hero));
  world : World
}.

Definition set_world (w : World) (c : State) : State := mkState (heroes c) w.
Definition set_heroes (l : list (option Hero)) (c : State) : State :=
  mkState (Some l) (world c).

(** [o.subscribe(next)]: run the synchronous part; a value goes to [next],
    an error has no handler, a request leaves its continuation in flight. *)
Definition subscribe_next {B T : Type} (o : Observable B T)
  (next : T -> State -> State) (c : State)
  : State * option (Notification B -> Observable B T) :=
  match subscribe o (world c) with
  | (Emitted v, w) => (next v (set_world w c), None)
  | (Errored _, w) => (set_world w c, None)
  | (Waiting k, w) => (set_world w c, Some k)
  end.

(** The transport answers a subscription that was left in flight. *)
Definition answered {B T : Type} (k : Notification B -> Observable B T)
  (next : T -> State -> State) (answer : Notification B) (c : State)
  : State * option (Notification B -> Observable B T) :=
  subscribe_next (k answer) next c.

(** [heroes => this.heroes = heroes] *)
Definition getHeroes_next (l : list Hero) (c : State) : State :=
  set_heroes (map Some l) c.

Definition getHeroes (c : State) :=
  let (o, w) := HeroService.getHeroes (world c) in
  subscribe_next o getHeroes_next (set_world w c).

Definition ngOnInit (c : State) := getHeroes c.

(** [hero => { this.heroes.push(hero); }]; [push] on an [undefined] list
    throws inside the callback and leaves the component as it was. *)
Definition add_next (hero : option Hero) (c : State) : State :=
  match heroes c with
  | Some l => set_heroes (l ++ [hero]) c
  | None => c
  end.

Definition add (name : jsstring) (c : State) :=
  let name := trim name in
  if falsy name then (c, None)
  else subscribe_next (HeroService.addHero store (mkHero undefined name)) add_next c.

(** [h !== hero] for an element [h] of the list. *)
Definition differs (hero : Hero) (h : option Hero) : bool :=
  match h with
  | Some r => negb (Nat.eqb r hero)
  | None => true
  end.

(** [.subscribe()] with no callback. *)
Definition delete_next (_ : option Hero) (c : State) : State := c.

(** [filter] on an [undefined] list throws before anything else happens. *)
Definition delete (hero : Hero) (c : State) :=
  match heroes c with
  | Some l =>
      let c := set_heroes (filter (differs hero) l) c in
      subscribe_next (HeroService.deleteHero store (inl hero)) delete_next c
  | None => (c, None)
  end.

(** [h !== undefined] for an element [h] of the list. *)
Definition defined (h : option Hero) : bool :=
  match h with
  | Some _ => true
  | None => false
  end.

(** [delete(hero)] as it can be called on an element of the list, which a
    failed create may have left [undefined].  For [undefined] the filter
    drops every [undefined] element, and [deleteHero(undefined)] then throws
    on reading [hero.id], before any request is built. *)
Definition delete_entry (h : option Hero) (c : State) :=
  match h with
  | Some hero => delete hero c
  | None =>
      match heroes c with
      | Some l => (set_heroes (filter defined l) c, None)
      | None => (c, None)
      end
  end.

End Component.
End HeroesComponent.

(* ================================================================= *)
(** ** HeroSearchComponent (hero-search/hero-search.component.ts)

    [heroes$] is [searchTerms.pipe(debounceTime(300), distinctUntilChanged(),
    switchMap(term => heroService.searchHeroes(term)))], subscribed once by
    the template.  The state below is the state of that one subscription:
    what each operator remembers, plus two histories (the terms
    [searchHeroes] was called with, and what the subscriber received, each
    batch with the number of the call that produced it). *)

Module HeroSearchComponent.

Definition Inner : Type :=
  Notification (list Hero) -> Observable (list Hero) (list Hero).

Record State : Type := mkState {
  (* debounceTime: the latest term and the time its timer is due *)
  lastValue : option (jsstring * N);
  (* distinctUntilChanged: the last term let through *)
  key : option jsstring;
  (* switchMap: the inner subscription in flight, as
     (request number, call number, continuation) *)
  inner : option (nat * nat * Inner);
  (* an error that reached the subscriber ends the subscription *)
  failure : option JsError;
  dispatched : list jsstring;
  observed : list (nat * list Hero);
  world : World
}.

Definition init : State := mkState None None None None [] [] emptyWorld.

Definition set_lastValue (v : option (jsstring * N)) (s : State) : State :=
  mkState v (key s) (inner s) (failure s) (dispatched s) (observed s) (world s).

Definition set_key (k : option jsstring) (s : State) : State :=
  mkState (lastValue s) k (inner s) (failure s) (dispatched s) (observed s)
    (world s).

Definition unsubscribe_inner (s : State) : State :=
  mkState (lastValue s) (key s) None (failure s) (dispatched s) (observed s)
    (world s).

Definition record_call (term : jsstring) (s : State) : State :=
  mkState (lastValue s) (key s) (inner s) (failure s) (dispatched s ++ [term])
    (observed s) (world s).

Inductive action : Type :=
| Submit (term : jsstring)                              (* search(term) *)
| Respond (req : nat) (answer : Notification (list Hero))  (* the transport answers *)
| Idle.                                                 (* time passes *)

Record event : Type := mkEvent { at_ : N; act : action }.

Section Pipeline.

(** When a timer is due at the very instant another event happens, either
    may run first; [timer_first] says which, instant by instant. *)
Variable timer_first : N -> bool.

Definition dueTime : N := 300.

(** debounceTime: a new value replaces the pending one and restarts the
    timer. *)
Definition debounce_next (now : N) (term : jsstring) (s : State) : State :=
  set_lastValue (Some (term, now + dueTime)%N) s.

Definition debounce_due (now : N) (s : State) : bool :=
  match lastValue s with
  | Some (_, due) => (due <? now)%N || ((due =? now)%N && timer_first now)
  | None => false
  end.

(** The inner subscription after its synchronous part, or after an answer. *)
Definition inner_settle (call : nat) (r : Subscription (list Hero) (list Hero) * World)
  (s : State) : State :=
  match r with
  | (Emitted v, w) =>
      mkState (lastValue s) (key s) None (failure s) (dispatched s)
        (observed s ++ [(call, v)]) w
  | (Errored e, w) =>
      mkState (lastValue s) (key s) None (Some e) (dispatched s) (observed s) w
  | (Waiting k, w) =>
      mkState (lastValue s) (key s)
        (Some (pred (List.length (requests w)), call, k))
        (failure s) (dispatched s) (observed s) w
  end.

(** switchMap: drop the previous inner subscription, call [searchHeroes]
    and subscribe to what it returns. *)
Definition switchMap_next (term : jsstring) (s : State) : State :=
  let call := List.length (dispatched s) in
  let s := record_call term (unsubscribe_inner s) in
  inner_settle call (subscribe (HeroService.searchHeroes term) (world s)) s.

(** distinctUntilChanged: [===] against the previous term. *)
Definition distinct_next (term : jsstring) (s : State) : State :=
  match key s with
  | Some k => if Js.eqb k term then s else switchMap_next term (set_key (Some term) s)
  | None => switchMap_next term (set_key (Some term) s)
  end.

(** The debounce timer fires: the pending term goes downstream. *)
Definition debounce_fire (s : State) : State :=
  match lastValue s with
  | Some (term, _) => distinct_next term (set_lastValue None s)
  | None => s
  end.

Definition advance (now : N) (s : State) : State :=
  if debounce_due now s then debounce_fire s else s.

(** An answer reaches the subscriber only through the inner subscription
    that is current; the request of a dropped one was cancelled. *)
Definition respond (req : nat) (answer : Notification (list Hero)) (s : State)
  : State :=
  match inner s with
  | Some (req', call, k) =>
      if Nat.eqb req req'
      then inner_settle call (subscribe (k answer) (world s)) (unsubscribe_inner s)
      else s
  | None => s
  end.

Definition alive (f : State -> State) (s : State) : State :=
  match failure s with
  | None => f s
  | Some _ => s
  end.

(** [search(term)]: [searchTerms.next(term)], which the subscription
    receives at the head of its chain. *)
Definition search (now : N) (term : jsstring) (s : State) : State :=
  debounce_next now term s.

Definition perform (now : N) (a : action) (s : State) : State :=
  match a with
  | Submit term => search now term s
  | Respond req answer => respond req answer s
  | Idle => s
  end.

Definition step (ev : event) (s : State) : State :=
  alive (perform (at_ ev) (act ev)) (alive (advance (at_ ev)) s).

Definition run (evs : list event) (s : State) : State :=
  fold_left (fun s ev => step ev s) evs s.

End Pipeline.

(** Events in chronological order, none before [t]. *)
Fixpoint chronological (t : N) (evs : list event) : bool :=
  match evs with
  | [] => true
  | ev :: rest => (t <=? at_ ev)%N && chronological (at_ ev) rest
  end.

(** The submissions among the events, with their times. *)
Fixpoint submissions (evs : list event) : list (N * jsstring) :=
  match evs with
  | [] => []
  | ev :: rest =>
      match act ev with
      | Submit term => (at_ ev, term) :: submissions rest
      | _ => submissions rest
      end
  end.

(** Each submission comes less than [dueTime] after the one before it;
    [t] is the time of the submission before the first of the list. *)
Fixpoint burst (t : N) (subs : list (N * jsstring)) : bool :=
  match subs with
  | [] => true
  | (t', _) :: rest => (t' <? t + dueTime)%N && burst t' rest
  end.

(** A burst as a whole: empty, or started by its first submission. *)
Definition is_burst (subs : list (N * jsstring)) : bool :=
  match subs with
  | [] => true
  | (t1, _) :: rest => burst t1 rest
  end.

End HeroSearchComponent.

(* ================================================================= *)
(** ** HeroDetailComponent (hero-detail/hero-detail.component.ts) *)

Module HeroDetailComponent.
Section Component.

Variable store : Store.

(** The [TypeError] the engine throws when a property of [undefined] is
    read; its text differs from engine to engine. *)
Variable type_error : JsError.

(** [backs] counts the calls of [location.back()]. *)
Record State : Type := mkState {
  selectedHeroDetails : option Hero;
  backs : nat;
  world : World
}.

Definition set_world (w : World) (c : State) : State :=
  mkState (selectedHeroDetails c) (backs c) w.

Definition subscribe_next {B T : Type} (o : Observable B T)
  (next : T -> State -> State) (c : State)
  : State * option (Notification B -> Observable B T) :=
  match subscribe o (world c) with
  | (Emitted v, w) => (next v (set_world w c), None)
  | (Errored _, w) => (set_world w c, None)
  | (Waiting k, w) => (set_world w c, Some k)
  end.

Definition answered {B T : Type} (k : Notification B -> Observable B T)
  (next : T -> State -> State) (answer : Notification B) (c : State)
  : State * option (Notification B -> Observable B T) :=
  subscribe_next (k answer) next c.

(** [hero => this.selectedHeroDetails = hero] *)
Definition getHero_next (hero : option Hero) (c : State) : State :=
  mkState hero (backs c) (world c).

(** [getHero()]; [id] is the number the unary [+] makes of the route
    parameter, [NaN] included. *)
Definition getHero (id : number) (c : State) :=
  subscribe_next (HeroService.getHero id) getHero_next c.

Definition ngOnInit (id : number) (c : State) := getHero id c.

Definition goBack (c : State) : State :=
  mkState (selectedHeroDetails c) (S (backs c)) (world c).

(** [tap(f)] with a callback that throws on every value: the error thrown
    goes down the chain in place of the value. *)
Fixpoint tap_throws {B T : Type} (thrown : T -> JsError) (o : Observable B T)
  : Observable B T :=
  match o with
  | of_ v => throwError (thrown v)
  | throwError e => throwError e
  | effect g next => effect g (tap_throws thrown next)
  | request r k => request r (fun n => tap_throws thrown (k n))
  end.

(** [heroService.updateHero(this.selectedHeroDetails)].  With nothing
    selected the PUT has no body, and [hero.id] in the [tap] of
    [updateHero] throws when a value comes through. *)
Definition updateHero_selected {Any : Type} (hero : option Hero)
  : Observable Any (option Any) :=
  match hero with
  | Some h => HeroService.updateHero store h
  | None =>
      pipe2 (http (mkRequest PUT HeroService.heroesUrl None HeroService.httpOptions))
        (tap_throws (fun _ => type_error))
        (catchError (HeroService.handleError (lit "updateHero") undefined))
  end.

(** [() => this.goBack()] *)
Definition save_next {Any : Type} (_ : option Any) (c : State) : State :=
  goBack c.

Definition save {Any : Type} (c : State) :=
  subscribe_next (@updateHero_selected Any (selectedHeroDetails c)) save_next c.

End Component.
End HeroDetailComponent.

(* ================================================================= *)
(** * Vocabulary of the properties *)

Import HeroService.

(** The text [handleError] hands to [log]. *)
Definition failure_text (operation : jsstring) (e : JsError) : jsstring :=
  operation ++ lit " failed: " ++ message e.

(** An observable that sends one request when subscribed and, whenever the
    transport later answers with an error, emits [F], having written that
    error once to the console and logged the failure text once. *)
Definition recovers {B T : Type} (o : Observable B T) (operation : jsstring)
  (F : T) : Prop :=
  forall w, exists r k,
    subscribe o w = (Waiting k, send r w) /\
    forall e w', exists w'',
      subscribe (k (Err e)) w' = (Emitted F, w'') /\
      requests w'' = requests w' /\
      console w'' = console w' ++ [e] /\
      messages w'' =
        messages w' ++ [lit "HeroService: " ++ failure_text operation e].

(** The view holds an entity whose id is [n]. *)
Definition holds_id (store : Store) (n : number) (view : list (option Hero)) : Prop :=
  exists h, In (Some h) view /\ id (store h) = Some n.

(** Two distinct hero objects that both carry id 42. *)
Definition twins : Store :=
  fun r => mkHero (Some (int 42)) (if Nat.eqb r 1 then lit "Nova" else lit "Nova II").

Definition twins_view : HeroesComponent.State :=
  HeroesComponent.mkState (Some [Some 1; Some 2]) emptyWorld.

(** Heroes whose id is their own reference number, and a view of two. *)
Definition roster : Store :=
  fun r => mkHero (Some (int (Z.of_nat r))) (lit "hero").

Definition roster_view : HeroesComponent.State :=
  HeroesComponent.mkState (Some [Some 42; Some 7]) emptyWorld.

Import HeroSearchComponent.

(** The numbers of the calls whose batches the subscriber has received. *)
Definition tags (s : State) : list nat := map fst (observed s).

(** Batches have arrived in the order of their calls, each call at most
    once and only from calls that were made; the inner subscription, if
    there is one, belongs to the latest call and has delivered nothing. *)
Definition in_call_order (s : State) : Prop :=
  StronglySorted lt (tags s) /\
  Forall (fun c => c < List.length (dispatched s)) (tags s) /\
  match inner s with
  | Some (_, call, _) =>
      S call = List.length (dispatched s) /\ Forall (fun c => c < call) (tags s)
  | None => True
  end.

(** [s'] comes after [s]: it is in call order, and what it has observed
    beyond [s] comes from the latest call of [s] or from later ones. *)
Definition follows (s s' : State) : Prop :=
  in_call_order s' /\
  List.length (dispatched s) <= List.length (dispatched s') /\
  exists later,
    observed s' = observed s ++ later /\
    Forall (fun o => List.length (dispatched s) <= S (fst o)) later.

(** "ba", then "bat" 400 ms later, both left to outlive the debounce. *)
Definition ba_then_bat : list event :=
  [mkEvent 0 (Submit (lit "ba")); mkEvent 400 (Submit (lit "bat"));
   mkEvent 701 Idle].

(** The answer for "ba" arrives, and after it the answer for "bat". *)
Definition late_answers : list event :=
  [mkEvent 800 (Respond 0 (Next [1; 2])); mkEvent 900 (Respond 1 (Next [2]))].

(** Three keystrokes 100 ms and 150 ms apart, then silence. *)
Definition typing_bat : list event :=
  [mkEvent 0 (Submit (lit "b")); mkEvent 100 (Submit (lit "ba"));
   mkEvent 250 (Submit (lit "bat")); mkEvent 600 Idle].



(** Neither the first nor the last code unit is white space (and there is
    a first one). *)
Definition no_outer_ws (s : jsstring) : bool :=
  negb (is_ws (hd 32%N s)) && negb (is_ws (last s 32%N)).

(** The request [searchHeroes] sends for a term. *)
Definition search_request (term : jsstring) : Request :=
  mkRequest GET (lit "api/heroes" ++ lit "/?name=" ++ term) None false.

Definition nonblank (term : jsstring) : bool := negb (falsy (trim term)).

(** What [searchHeroes] does with the answer to its request. *)
Definition search_continuation (term : jsstring) : Inner :=
  fun n =>
    catchError (handleError (lit "searchHeroes") [])
      (tap (fun x : list Hero =>
              match List.length x with
              | S _ => log (lit "found heroes matching " ++ quoted term)
              | O => log (lit "no heroes matching " ++ quoted term)
              end)
         (match n with Next v => of_ v | Err e => throwError e end)).

(** The batch an answer is observed as. *)
Definition batch_of (answer : Notification (list Hero)) : list Hero :=
  match answer with
  | Next x => x
  | Err _ => []
  end.

(** The message an answer to the search for [term] leaves in the sink. *)
Definition search_message (term : jsstring) (answer : Notification (list Hero))
  : jsstring :=
  match answer with
  | Next [] => lit "HeroService: " ++ lit "no heroes matching " ++ quoted term
  | Next (_ :: _) => lit "HeroService: " ++ lit "found heroes matching " ++ quoted term
  | Err e => lit "HeroService: " ++ failure_text (lit "searchHeroes") e
  end.

(** The number of the request that call [i] of [searchHeroes] sent, when
    its term is not blank: one request was sent for each earlier call with
    a term that is not blank. *)
Definition request_of_call (calls : list jsstring) (i : nat) : nat :=
  List.length (filter nonblank (firstn i calls)).

(** No term is followed directly by an equal one. *)
Fixpoint no_adjacent_equal (l : list jsstring) : bool :=
  match l with
  | a :: (b :: _) as rest => negb (Js.eqb a b) && no_adjacent_equal rest
  | _ => true
  end.

(** What every state reached from [init] satisfies. *)
Record sound (s : State) : Prop := mkSound {
  sound_alive : failure s = None;
  sound_key : key s = last (map Some (dispatched s)) None;
  sound_distinct : no_adjacent_equal (dispatched s) = true;
  sound_requests :
    requests (world s) = map search_request (filter nonblank (dispatched s));
  sound_inner :
    match inner s with
    | Some (req, call, k) =>
        exists term,
          S call = List.length (dispatched s) /\
          nth_error (dispatched s) call = Some term /\
          trim term <> [] /\
          k = search_continuation term /\
          S req = List.length (requests (world s))
    | None => True
    end;
  sound_blank :
    forall call term,
      nth_error (dispatched s) call = Some term ->
      trim term = [] ->
      In (call, []) (observed s)
}.

(* ================================================================= *)
(** * JavaScript strings, checked on examples *)

Example trim_strips_both_ends :
  trim (lit "  Nova ") = lit "Nova" /\ trim (9%N :: 160%N :: lit "a b" ++ [10%N]) = lit "a b".
Proof. split; reflexivity. Qed.

Example trim_keeps_inner_blanks : trim (lit " a  b ") = lit "a  b".
Proof. reflexivity. Qed.

Example show_renders_decimal :
  show (Some (int 42)) = lit "42" /\ show (Some (int 0)) = lit "0" /\
  show (Some (int (-7))) = lit "-7" /\ show None = lit "undefined".
Proof. repeat split. Qed.

(* ================================================================= *)
(** * Properties of HeroService *)

Lemma trim_blank_falsy (term : jsstring) :
  trim term = [] -> falsy (trim term) = true.
Proof. intros ->. reflexivity. Qed.

Lemma trim_nonblank_truthy (term : jsstring) :
  trim term <> [] -> falsy (trim term) = false.
Proof. destruct (trim term); [congruence | reflexivity]. Qed.


(** Any [HttpClient] call piped through a [tap] and
    [catchError(handleError(operation, F))] recovers to [F]. *)
Lemma piped_request_recovers {B T : Type} `{Subtype B T} (r : Request)
  (f : B -> World -> World) (operation : jsstring) (F : T) :
  recovers (pipe2 (http r) (tap f) (catchError (handleError operation F)))
    operation F.
Proof.
  intros w. exists r. eexists. split; [reflexivity |].
  intros e w'. eexists. split; [reflexivity |].
  cbn. repeat split; reflexivity.
Qed.

Section ServiceProperties.

Variable store : Store.

(** C1.  Each operation that has a fallback value (list: the empty list;
    get and delete: [undefined]; search of a non-blank term: the empty list)
    sends its request when subscribed and, when the transport fails with
    error [e], emits the fallback instead of failing, writes [e] once to the
    console and adds exactly one message to the sink, the failure text of
    the operation (behind the "HeroService: " tag every [log] carries).
    The only other message of a whole operation is the one [getHeroes] adds
    when it is called, and that one is not a failure message. *)
Theorem failing_operations_recover :
  (forall w0,
     recovers (fst (getHeroes w0)) (lit "getHeroes") [] /\
     snd (getHeroes w0) =
       messageService_add (lit "HeroService: fetched heroes") w0 /\
     startsWith (lit "HeroService: " ++ lit "getHeroes" ++ lit " failed: ")
       (lit "HeroService: fetched heroes") = false) /\
  (forall n, recovers (getHero n) (lit "getHero id=" ++ show_number n) undefined) /\
  (forall term, trim term <> [] ->
     recovers (searchHeroes term) (lit "searchHeroes") []) /\
  (forall hero, recovers (deleteHero store hero) (lit "deleteHero") undefined).
Proof.
  split; [| split; [| split]].
  - intros w0. split; [apply piped_request_recovers | split; reflexivity].
  - intros n. apply piped_request_recovers.
  - intros term Hterm. unfold searchHeroes.
    rewrite (trim_nonblank_truthy _ Hterm). apply piped_request_recovers.
  - intros hero. apply piped_request_recovers.
Qed.

(** C4.  A term that trims to the empty string: [searchHeroes] is
    [of([])]; subscribing emits the empty list at once and leaves the world
    (requests, messages, console) as it was. *)
Theorem searchHeroes_blank (term : jsstring) (w : World) :
  trim term = [] ->
  searchHeroes term = of_ [] /\
  subscribe (searchHeroes term) w = (Emitted [], w).
Proof.
  intros Hblank. unfold searchHeroes.
  rewrite (trim_blank_falsy _ Hblank). split; reflexivity.
Qed.

(** C5 (what the code does).  A successful [getHeroes()] returns the list
    [S] it received, but the sink receives "HeroService: fetched heroes"
    twice: once when the method is called, before the request is even sent,
    and once more from the [tap] when the answer arrives. *)
Theorem getHeroes_success_logs_twice (S : list Hero) (w : World) :
  let (o, w1) := getHeroes w in
  messages w1 = messages w ++ [lit "HeroService: fetched heroes"] /\
  requests w1 = requests w /\
  exists w2,
    exchange o (Next S) w1 = (Emitted S, w2) /\
    requests w2 = requests w ++ [mkRequest GET (lit "api/heroes") None false] /\
    console w2 = console w /\
    messages w2 =
      messages w ++ [lit "HeroService: fetched heroes";
                     lit "HeroService: fetched heroes"].
Proof.
  cbn. repeat split. eexists. split; [reflexivity |].
  cbn. repeat split. rewrite <- app_assoc. reflexivity.
Qed.

(** C8.  [deleteHero] resolves the id (the number itself, or the [id] field
    of the entity), sends [DELETE api/heroes/<id>] with the JSON header,
    and when the answer comes either logs "deleted hero id=<id>" and emits
    the body, or recovers to [undefined] with the failure logged. *)
Theorem deleteHero_contract (hero : Hero + number) :
  resolve_id store hero =
    match hero with inr n => Some n | inl h => id (store h) end /\
  forall w, exists k,
    subscribe (deleteHero store hero) w =
      (Waiting k,
       send (mkRequest DELETE
               (lit "api/heroes" ++ lit "/" ++ show (resolve_id store hero))
               None true) w) /\
    (forall (v : Hero) w',
       subscribe (k (Next v)) w' =
         (Emitted (Some v),
          messageService_add
            (lit "HeroService: " ++ lit "deleted hero id=" ++
             show (resolve_id store hero)) w')) /\
    (forall e w',
       subscribe (k (Err e)) w' =
         (Emitted undefined,
          messageService_add
            (lit "HeroService: " ++ failure_text (lit "deleteHero") e)
            (console_error e w'))).
Proof.
  split; [destruct hero; reflexivity |].
  intros w. eexists. split; [reflexivity |].
  split; intros; reflexivity.
Qed.

End ServiceProperties.

(** A failing search for "bat" and a search for three blanks. *)
Lemma failing_operations_recover_witness :
  trim (lit "bat") <> [] /\
  recovers (searchHeroes (lit "bat")) (lit "searchHeroes") [].
Proof.
  assert (H : trim (lit "bat") <> []) by (vm_compute; discriminate).
  split; [exact H |].
  exact (proj1 (proj2 (proj2
           (failing_operations_recover (fun _ => mkHero None [])))) (lit "bat") H).
Defined.

Lemma searchHeroes_blank_witness :
  trim (lit "   ") = [] /\
  subscribe (searchHeroes (lit "   ")) emptyWorld = (Emitted [], emptyWorld).
Proof.
  assert (H : trim (lit "   ") = []) by reflexivity.
  split; [exact H |].
  exact (proj2 (searchHeroes_blank (lit "   ") emptyWorld H)).
Defined.

(* ================================================================= *)
(** * Properties of HeroesComponent *)

Import HeroesComponent.


Lemma differs_false_iff (hero : Hero) (h : option Hero) :
  differs hero h = false <-> h = Some hero.
Proof.
  destruct h as [r |]; cbn.
  - rewrite negb_false_iff, Nat.eqb_eq. split; congruence.
  - split; discriminate.
Qed.

Lemma filter_differs_in (hero : Hero) (l : list (option Hero)) (h : option Hero) :
  In h (filter (differs hero) l) <-> In h l /\ h <> Some hero.
Proof.
  rewrite filter_In. split; intros [Hin Hd]; split; trivial.
  - intros ->.
    rewrite (proj2 (differs_false_iff hero (Some hero)) eq_refl) in Hd.
    discriminate.
  - destruct (differs hero h) eqn:E; trivial.
    apply differs_false_iff in E. contradiction.
Qed.


Section ComponentProperties.

Variable store : Store.

(** C6, as the code has it.  [delete(hero)] on a view [l] replaces the view
    at once by [l] without every occurrence of that very object (elements
    are compared by reference), and only then sends the DELETE request.
    Whatever the transport answers later, and whenever it does, the view is
    not touched again.  If no other object of the view carries the id of
    [hero], no entity with that id is left in the view. *)
Theorem delete_removes_reference (hero : Hero) (c : State)
  (l : list (option Hero)) :
  heroes c = Some l ->
  exists k c1,
    delete store hero c = (c1, Some k) /\
    heroes c1 = Some (filter (differs hero) l) /\
    ~ In (Some hero) (filter (differs hero) l) /\
    (forall h, h <> Some hero -> In h l -> In h (filter (differs hero) l)) /\
    (forall n,
       id (store hero) = Some n ->
       (forall h, In (Some h) l -> id (store h) = Some n -> h = hero) ->
       ~ holds_id store n (filter (differs hero) l)) /\
    (forall answer c',
       heroes (fst (answered k delete_next answer c')) = heroes c').
Proof.
  intros Hview. unfold delete. rewrite Hview.
  eexists. eexists. split; [reflexivity |]. cbn.
  split; [reflexivity |].
  split; [rewrite filter_differs_in; tauto |].
  split; [intros h Hne Hin; rewrite filter_differs_in; tauto |].
  split.
  - intros n Hid Huniq [h [Hin Hh]].
    apply filter_differs_in in Hin. destruct Hin as [Hin Hne].
    apply Hne. f_equal. apply Huniq; assumption.
  - intros [v | e] c'; reflexivity.
Qed.

(** C9, as the code has it.  [add(name)] with a non-blank name sends the
    POST with the trimmed name as body and no id.  When the transport
    answers with an error, at a moment when the view is a list [l], the
    view becomes [l] followed by one more element, and that element is
    [undefined]. *)
Theorem add_failure_appends_undefined (name : jsstring) (c : State) :
  trim name <> [] ->
  exists k,
    add store name c =
      (set_world
         (send (mkRequest POST (lit "api/heroes")
                  (Some (mkHero undefined (trim name))) true) (world c)) c,
       Some k) /\
    forall e c' l,
      heroes c' = Some l ->
      exists w'',
        answered k add_next (Err e) c' = (mkState (Some (l ++ [undefined])) w'', None) /\
        List.length (l ++ [@undefined Hero]) = S (List.length l).
Proof.
  intros Hname. unfold add. rewrite (trim_nonblank_truthy _ Hname).
  eexists. split; [reflexivity |].
  intros e c' l Hview. eexists. split.
  - unfold answered, subscribe_next. cbn. unfold add_next. cbn.
    rewrite Hview. reflexivity.
  - rewrite length_app. cbn. lia.
Qed.

(** C10.  [add(name)] with a name that trims to the empty string returns
    at once: nothing is sent, nothing is left in flight, the view and the
    world are what they were. *)
Theorem add_blank_is_noop (name : jsstring) (c : State) :
  trim name = [] ->
  add store name c = (c, None).
Proof.
  intros Hblank. unfold add. rewrite (trim_blank_falsy _ Hblank). reflexivity.
Qed.

End ComponentProperties.

(** C6 as stated fails: with two objects of id 42 in the view, deleting
    the first one leaves the second, so an entity with id 42 remains. *)
Lemma delete_leaves_twin :
  heroes twins_view = Some [Some 1; Some 2] /\
  id (twins 1) = Some (int 42) /\
  heroes (fst (delete twins 1 twins_view)) = Some [Some 2] /\
  holds_id twins (int 42) [Some 2].
Proof.
  repeat split. exists 2. split; [left; reflexivity | reflexivity].
Qed.

(** C9 as stated fails: a create that fails before the first list has
    arrived finds [heroes] still undefined; the push throws and the view
    does not grow. *)
Lemma add_failure_before_list_grows_nothing :
  trim (lit "Nova") <> [] /\
  heroes (mkState None emptyWorld) = None /\
  match add twins (lit "Nova") (mkState None emptyWorld) with
  | (c1, Some k) =>
      heroes c1 = None /\
      heroes (fst (answered k add_next (Err (mkError (lit "500"))) c1)) = None
  | (_, None) => False
  end.
Proof.
  split; [vm_compute; discriminate |]. split; [reflexivity |].
  cbn. split; reflexivity.
Qed.

Lemma delete_removes_reference_witness :
  heroes roster_view = Some [Some 42; Some 7] /\
  id (roster 42) = Some (int 42) /\
  (forall h, In (Some h) [Some 42; Some 7] -> id (roster h) = Some (int 42) -> h = 42) /\
  heroes (fst (delete roster 42 roster_view)) = Some [Some 7] /\
  ~ holds_id roster (int 42) [Some 7].
Proof.
  assert (Huniq : forall h, In (Some h) [Some 42; Some 7] ->
                            id (roster h) = Some (int 42) -> h = 42)
    by (intros h [E | [E | []]] Hid; injection E as <-;
        [reflexivity | vm_compute in Hid; discriminate]).
  destruct (delete_removes_reference roster 42 roster_view [Some 42; Some 7] eq_refl)
    as [k [c1 [Hd [Hv [_ [_ [Hid _]]]]]]].
  split; [reflexivity |]. split; [reflexivity |]. split; [exact Huniq |].
  split; [reflexivity |].
  exact (Hid (int 42) eq_refl Huniq).
Defined.

Lemma add_failure_appends_undefined_witness :
  trim (lit " Nova ") <> [] /\
  heroes twins_view = Some [Some 1; Some 2] /\
  exists k w'',
    snd (add twins (lit " Nova ") twins_view) = Some k /\
    answered k add_next (Err (mkError (lit "500"))) twins_view =
      (mkState (Some ([Some 1; Some 2] ++ [undefined])) w'', None).
Proof.
  assert (H : trim (lit " Nova ") <> []) by (vm_compute; discriminate).
  split; [exact H |]. split; [reflexivity |].
  destruct (add_failure_appends_undefined twins (lit " Nova ") twins_view H)
    as [k [Hadd Hfail]].
  destruct (Hfail (mkError (lit "500")) twins_view [Some 1; Some 2] eq_refl)
    as [w'' [Hans _]].
  exists k, w''. split; [rewrite Hadd; reflexivity | exact Hans].
Defined.

Lemma add_blank_is_noop_witness :
  trim (lit "  ") = [] /\ add twins (lit "  ") twins_view = (twins_view, None).
Proof.
  assert (H : trim (lit "  ") = []) by reflexivity.
  split; [exact H | exact (add_blank_is_noop twins (lit "  ") twins_view H)].
Defined.

(* ================================================================= *)
(** * Properties of the search pipeline *)

Import HeroSearchComponent.

Lemma jseqb_eq (a b : jsstring) : Js.eqb a b = true <-> a = b.
Proof.
  revert b. induction a as [| x a IH]; intros [| y b]; cbn;
    try (split; [discriminate | congruence]); [tauto |].
  rewrite andb_true_iff, N.eqb_eq, IH. split.
  - intros [-> ->]. reflexivity.
  - intros E. injection E. auto.
Qed.

Lemma jseqb_refl (a : jsstring) : Js.eqb a a = true.
Proof. apply jseqb_eq. reflexivity. Qed.

Lemma last_cons {A : Type} (a d : A) (l : list A) :
  last (a :: l) d = last l a.
Proof.
  revert a d. induction l as [| b l IH]; intros a d; [reflexivity |].
  change (last (a :: b :: l) d) with (last (b :: l) d).
  rewrite !IH. reflexivity.
Qed.

Lemma StronglySorted_snoc (l : list nat) (x : nat) :
  StronglySorted lt l -> Forall (fun y => y < x) l ->
  StronglySorted lt (l ++ [x]).
Proof.
  induction 1 as [| a l Hs IH Ha]; intros Hx; cbn.
  - constructor; constructor.
  - inversion Hx as [| ? ? Hax Hlx]; subst. constructor.
    + apply IH. exact Hlx.
    + apply Forall_app. split; [exact Ha | constructor; [exact Hax | constructor]].
Qed.

Section PipelineProperties.

Variable timer_first : N -> bool.

(** *** What each stage leaves alone *)

Lemma inner_settle_frame (call : nat) r (s : State) :
  lastValue (inner_settle call r s) = lastValue s /\
  key (inner_settle call r s) = key s /\
  dispatched (inner_settle call r s) = dispatched s.
Proof. destruct r as [[v | e | k] w]; cbn; auto. Qed.

Lemma switchMap_next_frame (term : jsstring) (s : State) :
  lastValue (switchMap_next term s) = lastValue s /\
  key (switchMap_next term s) = key s /\
  dispatched (switchMap_next term s) = dispatched s ++ [term].
Proof.
  unfold switchMap_next.
  destruct (inner_settle_frame (List.length (dispatched s))
              (subscribe (searchHeroes term)
                 (world (record_call term (unsubscribe_inner s))))
              (record_call term (unsubscribe_inner s))) as [H1 [H2 H3]].
  rewrite H1, H2, H3. cbn. auto.
Qed.

Lemma distinct_next_frame (term : jsstring) (s : State) :
  lastValue (distinct_next term s) = lastValue s /\
  (dispatched (distinct_next term s) = dispatched s \/
   dispatched (distinct_next term s) = dispatched s ++ [term]).
Proof.
  unfold distinct_next.
  destruct (switchMap_next_frame term (set_key (Some term) s)) as [H1 [_ H3]].
  destruct (key s) as [k |]; [destruct (Js.eqb k term) |]; auto.
Qed.

Lemma distinct_next_key (term : jsstring) (s : State) :
  key (distinct_next term s) = Some term.
Proof.
  unfold distinct_next.
  destruct (switchMap_next_frame term (set_key (Some term) s)) as [_ [H2 _]].
  destruct (key s) as [k |] eqn:Hk; [destruct (Js.eqb k term) eqn:E |]; auto.
  apply jseqb_eq in E. congruence.
Qed.

Lemma respond_frame (req : nat) answer (s : State) :
  lastValue (respond req answer s) = lastValue s /\
  key (respond req answer s) = key s /\
  dispatched (respond req answer s) = dispatched s.
Proof.
  unfold respond. destruct (inner s) as [[[req' call] k] |]; auto.
  destruct (Nat.eqb req req'); auto.
  destruct (inner_settle_frame call (subscribe (k answer) (world s))
              (unsubscribe_inner s)) as [H1 [H2 H3]].
  rewrite H1, H2, H3. cbn. auto.
Qed.

Lemma debounce_fire_frame (s : State) :
  lastValue (debounce_fire s) = None /\
  (dispatched (debounce_fire s) = dispatched s \/
   exists term due, lastValue s = Some (term, due) /\
     dispatched (debounce_fire s) = dispatched s ++ [term]).
Proof.
  unfold debounce_fire. destruct (lastValue s) as [[term due] |] eqn:Hl.
  - destruct (distinct_next_frame term (set_lastValue None s)) as [H1 H2].
    split; [exact H1 |]. cbn in H2. destruct H2 as [H2 | H2]; [left | right]; eauto.
  - auto.
Qed.

Lemma alive_cases (f : State -> State) (s : State) :
  (failure s = None /\ alive f s = f s) \/ (failure s <> None /\ alive f s = s).
Proof.
  unfold alive. destruct (failure s); [right | left]; split; congruence.
Qed.

Lemma alive_live (f : State -> State) (s : State) :
  failure s = None -> alive f s = f s.
Proof. unfold alive. intros ->. reflexivity. Qed.

Lemma step_dead (ev : event) (s : State) :
  failure s <> None -> step timer_first ev s = s.
Proof.
  intros Hd. unfold HeroSearchComponent.step, alive.
  destruct (failure s) eqn:Hf; [rewrite Hf; reflexivity | congruence].
Qed.

Lemma run_cons (ev : event) (evs : list event) (s : State) :
  run timer_first (ev :: evs) s = run timer_first evs (step timer_first ev s).
Proof. reflexivity. Qed.

Lemma run_dead (evs : list event) (s : State) :
  failure s <> None -> run timer_first evs s = s.
Proof.
  induction evs as [| ev evs IH]; intros Hd; [reflexivity |].
  rewrite run_cons, (step_dead ev s Hd). apply IH. exact Hd.
Qed.

Lemma run_app (evs1 evs2 : list event) (s : State) :
  run timer_first (evs1 ++ evs2) s = run timer_first evs2 (run timer_first evs1 s).
Proof. apply fold_left_app. Qed.

(** *** Single steps *)

Lemma submit_or_not (a : action) :
  {term | a = Submit term} + {forall term, a <> Submit term}.
Proof.
  destruct a as [term | req answer |];
    [left; exists term; reflexivity | right; discriminate | right; discriminate].
Qed.

Lemma advance_not_due (now : N) (s : State) :
  debounce_due timer_first now s = false -> advance timer_first now s = s.
Proof. unfold advance. intros ->. reflexivity. Qed.

Lemma perform_frame (now : N) (a : action) (s : State) :
  (forall term, a <> Submit term) ->
  lastValue (perform now a s) = lastValue s /\
  dispatched (perform now a s) = dispatched s.
Proof.
  intros Hns. destruct a as [term | req answer |]; cbn.
  - destruct (Hns term eq_refl).
  - destruct (respond_frame req answer s) as [H1 [_ H3]]. auto.
  - auto.
Qed.

Lemma step_quiet (ev : event) (s : State) :
  debounce_due timer_first (at_ ev) s = false ->
  (forall term, act ev <> Submit term) ->
  lastValue (step timer_first ev s) = lastValue s /\
  dispatched (step timer_first ev s) = dispatched s.
Proof.
  intros Hnd Hns. unfold step.
  destruct (alive_cases (advance timer_first (at_ ev)) s) as [[_ ->] | [_ ->]];
    rewrite ?(advance_not_due _ _ Hnd);
    destruct (alive_cases (perform (at_ ev) (act ev)) s) as [[_ ->] | [_ ->]];
    auto using perform_frame.
Qed.

Lemma step_submit (ev : event) (term : jsstring) (s : State) :
  debounce_due timer_first (at_ ev) s = false ->
  act ev = Submit term ->
  failure s = None ->
  step timer_first ev s = debounce_next (at_ ev) term s.
Proof.
  intros Hnd Hact Hal. unfold step.
  rewrite Hact, (alive_live (advance timer_first (at_ ev)) s Hal).
  rewrite (advance_not_due _ _ Hnd).
  rewrite (alive_live _ s Hal). reflexivity.
Qed.

Lemma step_fires (ev : event) (s : State) :
  debounce_due timer_first (at_ ev) s = true ->
  (forall term, act ev <> Submit term) ->
  failure s = None ->
  lastValue (step timer_first ev s) = None /\
  (dispatched (step timer_first ev s) = dispatched s \/
   exists term due, lastValue s = Some (term, due) /\
     dispatched (step timer_first ev s) = dispatched s ++ [term]).
Proof.
  intros Hd Hns Hal. unfold step.
  rewrite (alive_live (advance timer_first (at_ ev)) s Hal).
  unfold advance. rewrite Hd.
  destruct (debounce_fire_frame s) as [H1 H2].
  destruct (alive_cases (perform (at_ ev) (act ev)) (debounce_fire s))
    as [[_ ->] | [_ ->]]; [| auto].
  destruct (perform_frame (at_ ev) (act ev) (debounce_fire s) Hns) as [P1 P2].
  rewrite P1, P2. auto.
Qed.

(** *** Order of events *)

Lemma chronological_cons (t : N) (ev : event) (evs : list event) :
  chronological t (ev :: evs) = true <->
  (t <= at_ ev)%N /\ chronological (at_ ev) evs = true.
Proof. cbn. rewrite andb_true_iff, N.leb_le. reflexivity. Qed.

Lemma burst_cons (t t' : N) (term : jsstring) (subs : list (N * jsstring)) :
  burst t ((t', term) :: subs) = true <->
  (t' < t + dueTime)%N /\ burst t' subs = true.
Proof. cbn. rewrite andb_true_iff, N.ltb_lt. reflexivity. Qed.

Lemma chronological_weaken (t t' : N) (evs : list event) :
  (t <= t')%N -> chronological t' evs = true -> chronological t evs = true.
Proof.
  destruct evs as [| ev rest]; [trivial |].
  rewrite !chronological_cons. intros Hle [H1 H2]. split; [lia | exact H2].
Qed.

Lemma chronological_first_submission (evs : list event) :
  forall t t' term rest,
    chronological t evs = true ->
    submissions evs = (t', term) :: rest ->
    (t <= t')%N.
Proof.
  induction evs as [| ev evs IH]; intros t t' term rest Hc Hs.
  - discriminate.
  - apply chronological_cons in Hc. cbn in Hs.
    destruct Hc as [Hle Hc]. destruct (act ev).
    + injection Hs as <- _ _. exact Hle.
    + apply N.le_trans with (at_ ev); [exact Hle | eapply IH; eassumption].
    + apply N.le_trans with (at_ ev); [exact Hle | eapply IH; eassumption].
Qed.

(** *** Debounce *)

(** With nothing pending and no submission, no search is called. *)
Lemma run_quiet (evs : list event) :
  forall s,
    lastValue s = None ->
    submissions evs = [] ->
    dispatched (run timer_first evs s) = dispatched s.
Proof.
  induction evs as [| ev evs IH]; intros s Hl Hs; [reflexivity |].
  cbn in Hs. rewrite run_cons.
  assert (Hnd : debounce_due timer_first (at_ ev) s = false)
    by (unfold debounce_due; rewrite Hl; reflexivity).
  assert (Hns : forall term, act ev <> Submit term)
    by (intros term E; rewrite E in Hs; discriminate).
  destruct (step_quiet ev s Hnd Hns) as [Q1 Q2].
  rewrite IH.
  - exact Q2.
  - congruence.
  - destruct (act ev); [discriminate | exact Hs | exact Hs].
Qed.

(** A term is pending since time [t]; the submissions that follow keep
    the burst going.  At most one search is called, for the last term. *)
Lemma run_pending (evs : list event) :
  forall s term t,
    lastValue s = Some (term, (t + dueTime)%N) ->
    chronological t evs = true ->
    burst t (submissions evs) = true ->
    dispatched (run timer_first evs s) = dispatched s \/
    dispatched (run timer_first evs s) =
      dispatched s ++ [last (map snd (submissions evs)) term].
Proof.
  induction evs as [| ev evs IH]; intros s term t Hl Hc Hb; [left; reflexivity |].
  destruct (failure s) eqn:Hal.
  { left. rewrite run_dead; [reflexivity | congruence]. }
  apply chronological_cons in Hc.
  destruct Hc as [Hle Hc]. rewrite run_cons.
  cbn [submissions] in *.
  destruct (submit_or_not (act ev)) as [[term' Hact] | Hns]; rewrite ?Hact in *.
  - (* a further submission: the timer is restarted *)
    apply burst_cons in Hb. destruct Hb as [Hlt Hb].
    assert (Hnd : debounce_due timer_first (at_ ev) s = false).
    { unfold debounce_due. rewrite Hl.
      replace (t + dueTime <? at_ ev)%N with false by (symmetry; apply N.ltb_ge; lia).
      replace (t + dueTime =? at_ ev)%N with false by (symmetry; apply N.eqb_neq; lia).
      reflexivity. }
    rewrite (step_submit ev term' s Hnd Hact Hal).
    cbn [map snd]. rewrite last_cons.
    apply (IH (debounce_next (at_ ev) term' s) term' (at_ ev));
      [reflexivity | exact Hc | exact Hb].
  - assert (Hsub : submissions evs =
                   match act ev with
                   | Submit x => (at_ ev, x) :: submissions evs
                   | _ => submissions evs
                   end)
      by (destruct (act ev) as [x | |]; [destruct (Hns x eq_refl) | |]; reflexivity).
    rewrite <- Hsub in *. clear Hsub.
    destruct (debounce_due timer_first (at_ ev) s) eqn:Hdue.
    + (* the timer fires; no submission can follow within the burst *)
      destruct (step_fires ev s Hdue Hns Hal) as [F1 F2].
      assert (Hnone : submissions evs = []).
      { destruct (submissions evs) as [| [t' x] rest] eqn:Hs; [reflexivity |].
        pose proof (chronological_first_submission evs _ _ _ _ Hc Hs) as Hge.
        apply burst_cons in Hb. destruct Hb as [Hlt _].
        unfold debounce_due in Hdue. rewrite Hl in Hdue.
        apply orb_true_iff in Hdue. destruct Hdue as [Hdue | Hdue].
        - apply N.ltb_lt in Hdue. lia.
        - apply andb_true_iff in Hdue. destruct Hdue as [Hdue _].
          apply N.eqb_eq in Hdue. lia. }
      rewrite (run_quiet evs _ F1 Hnone). rewrite Hnone. cbn.
      destruct F2 as [F2 | [x [due [Hx F2]]]]; [left; exact F2 |].
      right. rewrite F2. congruence.
    + (* not yet due: the term stays pending *)
      destruct (step_quiet ev s Hdue Hns) as [Q1 Q2].
      rewrite <- Q2.
      apply (IH (step timer_first ev s) term t);
        [congruence | apply chronological_weaken with (at_ ev); assumption | exact Hb].
Qed.

(** C3.  The pipeline has nothing pending; then come events in
    chronological order whose submissions form a burst: each submission
    less than 300 ms after the one before.  Whatever else happens meanwhile
    and afterwards (answers arriving, time passing), [searchHeroes] is
    called at most once, and if it is called, then with the last term of
    the burst. *)
Theorem burst_calls_search_at_most_once (s : State) (t0 : N) (evs : list event) :
  lastValue s = None ->
  chronological t0 evs = true ->
  is_burst (submissions evs) = true ->
  dispatched (run timer_first evs s) = dispatched s \/
  (submissions evs <> [] /\
   dispatched (run timer_first evs s) =
     dispatched s ++ [last (map snd (submissions evs)) []]).
Proof.
  revert s t0. induction evs as [| ev evs IH]; intros s t0 Hl Hc Hb;
    [left; reflexivity |].
  destruct (failure s) eqn:Hal.
  { left. rewrite run_dead; [reflexivity | congruence]. }
  apply chronological_cons in Hc.
  destruct Hc as [Hle Hc]. rewrite run_cons.
  assert (Hnd : debounce_due timer_first (at_ ev) s = false)
    by (unfold debounce_due; rewrite Hl; reflexivity).
  cbn [submissions] in *.
  destruct (submit_or_not (act ev)) as [[term Hact] | Hns]; rewrite ?Hact in *.
  - (* the first submission of the burst *)
    rewrite (step_submit ev term s Hnd Hact Hal).
    destruct (run_pending evs (debounce_next (at_ ev) term s) term (at_ ev)
                eq_refl Hc Hb) as [R | R]; [left; exact R |].
    right. split; [discriminate |].
    cbn [map snd]. rewrite last_cons. exact R.
  - assert (Hsub : submissions evs =
                   match act ev with
                   | Submit x => (at_ ev, x) :: submissions evs
                   | _ => submissions evs
                   end)
      by (destruct (act ev) as [x | |]; [destruct (Hns x eq_refl) | |]; reflexivity).
    rewrite <- Hsub in *. clear Hsub.
    destruct (step_quiet ev s Hnd Hns) as [Q1 Q2].
    rewrite <- Q2.
    apply (IH (step timer_first ev s) (at_ ev)); [congruence | exact Hc | exact Hb].
Qed.

(** *** De-duplication *)

Lemma distinct_next_same (term : jsstring) (s : State) :
  key s = Some term -> distinct_next term s = s.
Proof.
  intros Hk. unfold distinct_next. rewrite Hk, jseqb_refl. reflexivity.
Qed.

Lemma set_lastValue_same (s : State) :
  lastValue s = None -> set_lastValue None s = s.
Proof. destruct s. cbn. intros ->. reflexivity. Qed.

Lemma step_idle_due (now : N) (s : State) (term : jsstring) (due : N) :
  lastValue s = Some (term, due) ->
  (due < now)%N ->
  failure s = None ->
  step timer_first (mkEvent now Idle) s = distinct_next term (set_lastValue None s).
Proof.
  intros Hl Hlt Hal. unfold step. cbn [at_ act].
  rewrite (alive_live _ s Hal). unfold advance, debounce_due. rewrite Hl.
  replace (due <? now)%N with true by (symmetry; apply N.ltb_lt; exact Hlt).
  cbn [orb]. unfold debounce_fire. rewrite Hl.
  unfold alive.
  destruct (failure (distinct_next term (set_lastValue None s))); reflexivity.
Qed.

Lemma step_submit_due (now : N) (s : State) (term term' : jsstring) (due : N) :
  lastValue s = Some (term, due) ->
  (due < now)%N ->
  failure s = None ->
  step timer_first (mkEvent now (Submit term')) s =
    alive (debounce_next now term') (distinct_next term (set_lastValue None s)).
Proof.
  intros Hl Hlt Hal. unfold step. cbn [at_ act].
  rewrite (alive_live _ s Hal). unfold advance, debounce_due. rewrite Hl.
  replace (due <? now)%N with true by (symmetry; apply N.ltb_lt; exact Hlt).
  cbn [orb]. unfold debounce_fire. rewrite Hl. reflexivity.
Qed.

(** Submitting the same term a second time, after the first has gone
    through the debounce, leaves the pipeline where one submission leaves
    it. *)
Lemma resubmission_is_absorbed (s : State) (term : jsstring) (t1 t2 t3 : N) :
  (t1 + dueTime < t2)%N ->
  (t2 + dueTime < t3)%N ->
  run timer_first [mkEvent t1 (Submit term); mkEvent t2 (Submit term);
                   mkEvent t3 Idle] s =
  run timer_first [mkEvent t1 (Submit term); mkEvent t3 Idle] s.
Proof.
  intros H12 H23. rewrite !run_cons.
  set (q := step timer_first (mkEvent t1 (Submit term)) s).
  destruct (failure q) eqn:Hq.
  { assert (Hdead : failure q <> None) by congruence.
    rewrite (step_dead (mkEvent t2 (Submit term)) q Hdead). reflexivity. }
  assert (Hl : lastValue q = Some (term, (t1 + dueTime)%N)).
  { subst q. unfold step in Hq |- *. cbn [at_ act] in Hq |- *.
    destruct (alive_cases (perform t1 (Submit term))
                (alive (advance timer_first t1) s))
      as [[Ha E] | [Ha E]]; rewrite E in Hq |- *; [reflexivity | contradiction]. }
  cbn [run fold_left].
  rewrite (step_idle_due t3 q term (t1 + dueTime) Hl) by (trivial; lia).
  rewrite (step_submit_due t2 q term term (t1 + dueTime) Hl) by (trivial; lia).
  set (d := distinct_next term (set_lastValue None q)).
  assert (Hdl : lastValue d = None)
    by (subst d; rewrite (proj1 (distinct_next_frame _ _)); reflexivity).
  assert (Hdk : key d = Some term) by (subst d; apply distinct_next_key).
  destruct (alive_cases (debounce_next t2 term) d) as [[Hd ->] | [Hd ->]].
  - rewrite (step_idle_due t3 (debounce_next t2 term d) term (t2 + dueTime))
      by (trivial; lia).
    replace (set_lastValue None (debounce_next t2 term d)) with d
      by (destruct d; cbn in *; subst; reflexivity).
    apply distinct_next_same. exact Hdk.
  - apply step_dead. exact Hd.
Qed.

(** C7.  [distinctUntilChanged] remembers the term that last came out of
    the debounce.  A term that comes out of the debounce equal to the one
    before it is dropped: the pipeline state does not change, so no search
    is called for it.  And a stream
    that ends with the same surviving term twice calls [searchHeroes] with
    the same sequence of terms, and sends the same requests, as the stream
    that ends with it once. *)
Theorem repeated_term_is_suppressed (term : jsstring) :
  (forall s, key (distinct_next term s) = Some term) /\
  (forall s, key s = Some term -> distinct_next term s = s) /\
  (forall (evs : list event) (s : State) (t1 t2 t3 : N),
     (t1 + dueTime < t2)%N ->
     (t2 + dueTime < t3)%N ->
     let once :=
       run timer_first (evs ++ [mkEvent t1 (Submit term); mkEvent t3 Idle]) s in
     let twice :=
       run timer_first
         (evs ++ [mkEvent t1 (Submit term); mkEvent t2 (Submit term);
                  mkEvent t3 Idle]) s in
     dispatched twice = dispatched once /\
     requests (world twice) = requests (world once)).
Proof.
  split; [intros s; apply distinct_next_key |].
  split; [intros s; apply distinct_next_same |].
  intros evs s t1 t2 t3 H12 H23 once twice. subst once twice.
  rewrite !run_app, (resubmission_is_absorbed _ term t1 t2 t3 H12 H23).
  split; reflexivity.
Qed.

(** *** Supersede *)


Lemma follows_refl (s : State) : in_call_order s -> follows s s.
Proof.
  intros H. split; [exact H |]. split; [lia |].
  exists []. rewrite app_nil_r. split; [reflexivity | constructor].
Qed.

Lemma follows_trans (a b c : State) : follows a b -> follows b c -> follows a c.
Proof.
  intros [_ [Hab [l1 [E1 F1]]]] [Hc [Hbc [l2 [E2 F2]]]].
  split; [exact Hc |]. split; [lia |].
  exists (l1 ++ l2). split.
  - rewrite E2, E1, app_assoc. reflexivity.
  - apply Forall_app. split; [exact F1 |].
    eapply Forall_impl; [| exact F2]. cbn. intros o Ho. lia.
Qed.

Lemma Forall_lt_weaken (l : list nat) (a b : nat) :
  a <= b -> Forall (fun c => c < a) l -> Forall (fun c => c < b) l.
Proof.
  intros Hab. apply Forall_impl. intros c Hc. lia.
Qed.

Lemma inner_settle_follows (call : nat) r (s s0 : State) :
  StronglySorted lt (tags s) ->
  Forall (fun c => c < call) (tags s) ->
  S call = List.length (dispatched s) ->
  observed s = observed s0 ->
  List.length (dispatched s0) <= S call ->
  follows s0 (inner_settle call r s).
Proof.
  intros Hs Hlt Hcall Hobs Hlen.
  destruct r as [[v | e | k] w]; unfold follows, in_call_order, tags in *; cbn.
  - rewrite map_app. cbn. repeat split.
    + apply StronglySorted_snoc; assumption.
    + apply Forall_app. split.
      * apply Forall_lt_weaken with call; [lia | exact Hlt].
      * constructor; [lia | constructor].
    + lia.
    + exists [(call, v)]. rewrite Hobs. split; [reflexivity |].
      constructor; [cbn; lia | constructor].
  - repeat split.
    + exact Hs.
    + apply Forall_lt_weaken with call; [lia | exact Hlt].
    + lia.
    + exists []. rewrite app_nil_r. split; [exact Hobs | constructor].
  - repeat split.
    + exact Hs.
    + apply Forall_lt_weaken with call; [lia | exact Hlt].
    + exact Hcall.
    + exact Hlt.
    + lia.
    + exists []. rewrite app_nil_r. split; [exact Hobs | constructor].
Qed.

Lemma switchMap_next_follows (term : jsstring) (s : State) :
  in_call_order s -> follows s (switchMap_next term s).
Proof.
  intros [Hs [Hlt _]]. unfold switchMap_next.
  apply inner_settle_follows; cbn.
  - exact Hs.
  - exact Hlt.
  - rewrite length_app. cbn. lia.
  - reflexivity.
  - lia.
Qed.

Lemma in_call_order_set_key (k : option jsstring) (s : State) :
  in_call_order s -> in_call_order (set_key k s).
Proof. trivial. Qed.

Lemma in_call_order_set_lastValue (v : option (jsstring * N)) (s : State) :
  in_call_order s -> in_call_order (set_lastValue v s).
Proof. trivial. Qed.

Lemma distinct_next_follows (term : jsstring) (s : State) :
  in_call_order s -> follows s (distinct_next term s).
Proof.
  intros H. unfold distinct_next.
  destruct (key s) as [k |]; [destruct (Js.eqb k term) |];
    [apply follows_refl; exact H | |];
    apply (switchMap_next_follows term (set_key (Some term) s));
    apply in_call_order_set_key; exact H.
Qed.

Lemma advance_follows (now : N) (s : State) :
  in_call_order s -> follows s (advance timer_first now s).
Proof.
  intros H. unfold advance, debounce_fire.
  destruct (debounce_due timer_first now s); [| apply follows_refl; exact H].
  destruct (lastValue s) as [[term due] |]; [| apply follows_refl; exact H].
  apply (distinct_next_follows term (set_lastValue None s)).
  apply in_call_order_set_lastValue. exact H.
Qed.

Lemma respond_follows (req : nat) answer (s : State) :
  in_call_order s -> follows s (respond req answer s).
Proof.
  intros H. pose proof H as [Hs [Hlt Hin]]. unfold respond.
  destruct (inner s) as [[[req' call] k] |]; [| apply follows_refl; exact H].
  destruct (Nat.eqb req req'); [| apply follows_refl; exact H].
  destruct Hin as [Hcall Hlt']. apply inner_settle_follows; cbn.
  - exact Hs.
  - exact Hlt'.
  - exact Hcall.
  - reflexivity.
  - lia.
Qed.

Lemma perform_follows (now : N) (a : action) (s : State) :
  in_call_order s -> follows s (perform now a s).
Proof.
  intros H. destruct a as [term | req answer |]; cbn.
  - apply (follows_refl (debounce_next now term s)). exact H.
  - apply respond_follows. exact H.
  - apply follows_refl. exact H.
Qed.

Lemma alive_follows (f : State -> State) (s : State) :
  in_call_order s -> (in_call_order s -> follows s (f s)) -> follows s (alive f s).
Proof.
  intros H Hf. unfold alive. destruct (failure s); [apply follows_refl |]; auto.
Qed.

Lemma step_follows (ev : event) (s : State) :
  in_call_order s -> follows s (step timer_first ev s).
Proof.
  intros H. unfold step.
  assert (H1 : follows s (alive (advance timer_first (at_ ev)) s))
    by (apply alive_follows; [exact H | apply advance_follows]).
  apply follows_trans with (alive (advance timer_first (at_ ev)) s); [exact H1 |].
  apply alive_follows; [exact (proj1 H1) | apply perform_follows].
Qed.

Lemma run_follows (evs : list event) :
  forall s, in_call_order s -> follows s (run timer_first evs s).
Proof.
  induction evs as [| ev evs IH]; intros s H; [apply follows_refl; exact H |].
  rewrite run_cons.
  apply follows_trans with (step timer_first ev s); [apply step_follows; exact H |].
  apply IH. exact (proj1 (step_follows ev s H)).
Qed.

Lemma init_in_call_order : in_call_order init.
Proof. repeat split; constructor. Qed.

End PipelineProperties.

(* ================================================================= *)
(** * Worked runs of the search pipeline *)

(** "bat" is typed and left alone: one search, for "bat"; the answer is
    observed and logged. *)
Example bat_is_searched_once :
  let s := run (fun _ => true)
             [mkEvent 0 (Submit (lit "bat")); mkEvent 350 Idle;
              mkEvent 420 (Respond 0 (Next [1]))] init in
  dispatched s = [lit "bat"] /\
  requests (world s) = [mkRequest GET (lit "api/heroes/?name=bat") None false] /\
  observed s = [(0, [1])] /\
  messages (world s) =
    [lit "HeroService: found heroes matching " ++ quoted (lit "bat")].
Proof. vm_compute. repeat split. Qed.

(** "ba", then "bat" 400 ms later.  The answer for "ba" arrives after
    "bat" was dispatched and is dropped; only the batch for "bat" is
    observed. *)
Example late_answer_is_dropped :
  let s := run (fun _ => false) (ba_then_bat ++ late_answers) init in
  dispatched s = [lit "ba"; lit "bat"] /\
  observed s = [(1, [2])] /\
  messages (world s) =
    [lit "HeroService: found heroes matching " ++ quoted (lit "bat")].
Proof. vm_compute. repeat split. Qed.

(** The same two searches when the first answer is in time: both batches
    are observed, in the order of the calls. *)
Example timely_answers_are_observed_in_order :
  let s := run (fun _ => false)
             [mkEvent 0 (Submit (lit "ba"));
              mkEvent 400 (Submit (lit "bat"));
              mkEvent 500 (Respond 0 (Next [1; 2]));
              mkEvent 701 Idle;
              mkEvent 900 (Respond 1 (Next [2]))] init in
  observed s = [(0, [1; 2]); (1, [2])].
Proof. vm_compute. reflexivity. Qed.


Example typing_bat_searches_bat :
  dispatched (run (fun _ => true) typing_bat init) = [lit "bat"].
Proof. vm_compute. reflexivity. Qed.

Lemma burst_calls_search_at_most_once_witness :
  lastValue init = None /\
  chronological 0 typing_bat = true /\
  is_burst (submissions typing_bat) = true /\
  (dispatched (run (fun _ => true) typing_bat init) = dispatched init \/
   (submissions typing_bat <> [] /\
    dispatched (run (fun _ => true) typing_bat init) =
      dispatched init ++ [last (map snd (submissions typing_bat)) []])).
Proof.
  split; [reflexivity |]. split; [reflexivity |]. split; [reflexivity |].
  exact (burst_calls_search_at_most_once (fun _ => true) init 0 typing_bat
           eq_refl eq_refl eq_refl).
Defined.

Lemma repeated_term_is_suppressed_witness :
  key (set_key (Some (lit "bat")) init) = Some (lit "bat") /\
  distinct_next (lit "bat") (set_key (Some (lit "bat")) init) =
    set_key (Some (lit "bat")) init /\
  (0 + dueTime < 400)%N /\ (400 + dueTime < 800)%N /\
  dispatched
    (run (fun _ => true)
       ([] ++ [mkEvent 0 (Submit (lit "bat")); mkEvent 400 (Submit (lit "bat"));
               mkEvent 800 Idle]) init) =
  dispatched
    (run (fun _ => true)
       ([] ++ [mkEvent 0 (Submit (lit "bat")); mkEvent 800 Idle]) init).
Proof.
  assert (H12 : (0 + dueTime < 400)%N) by (vm_compute; reflexivity).
  assert (H23 : (400 + dueTime < 800)%N) by (vm_compute; reflexivity).
  split; [reflexivity |].
  split; [exact (proj1 (proj2 (repeated_term_is_suppressed (fun _ => true)
                                 (lit "bat")))
                   (set_key (Some (lit "bat")) init) eq_refl) |].
  split; [exact H12 |]. split; [exact H23 |].
  exact (proj1 (proj2 (proj2 (repeated_term_is_suppressed (fun _ => true)
                                (lit "bat")))
                  [] init 0%N 400%N 800%N H12 H23)).
Defined.


(* ================================================================= *)
(** * Further properties: trimming *)

Lemma trimStart_suffix (s : jsstring) :
  exists pre, s = pre ++ trimStart s /\ forallb is_ws pre = true.
Proof.
  induction s as [| c s [pre [E Hpre]]]; [exists []; split; reflexivity |].
  cbn. destruct (is_ws c) eqn:Hc.
  - exists (c :: pre). cbn. rewrite Hc, Hpre. split; [f_equal; exact E | reflexivity].
  - exists []. split; reflexivity.
Qed.

Lemma trimStart_head (s : jsstring) (c : N) (r : jsstring) :
  trimStart s = c :: r -> is_ws c = false.
Proof.
  induction s as [| x s IH]; cbn; [discriminate |].
  destruct (is_ws x) eqn:Hx; [exact IH |].
  intros E. injection E as <- _. exact Hx.
Qed.

Lemma trimStart_nil_iff (s : jsstring) :
  trimStart s = [] <-> forallb is_ws s = true.
Proof.
  induction s as [| x s IH]; cbn; [tauto |].
  destruct (is_ws x); cbn; [exact IH | split; discriminate].
Qed.

Lemma trimStart_fixed (s : jsstring) :
  is_ws (hd 32%N s) = false -> trimStart s = s.
Proof. destruct s as [| c s]; cbn; [reflexivity | intros ->; reflexivity]. Qed.

Lemma forallb_rev {A : Type} (f : A -> bool) (l : list A) :
  forallb f (rev l) = forallb f l.
Proof.
  induction l as [| a l IH]; [reflexivity |].
  cbn. rewrite forallb_app, IH. cbn. rewrite andb_true_r. apply andb_comm.
Qed.

(** [trim] gives the empty string exactly on strings of white space. *)
Lemma trim_nil_iff (s : jsstring) :
  trim s = [] <-> forallb is_ws s = true.
Proof.
  unfold trim, trimEnd. split.
  - intros E. apply (f_equal (@rev N)) in E. rewrite rev_involutive in E. cbn in E.
    apply trimStart_nil_iff in E. rewrite forallb_rev in E.
    destruct (trimStart s) as [| c r] eqn:Hs.
    + apply trimStart_nil_iff. exact Hs.
    + cbn in E. rewrite (trimStart_head s c r Hs) in E. discriminate.
  - intros H. apply trimStart_nil_iff in H. rewrite H. reflexivity.
Qed.

(** A string that is not all white space is trimmed to one with no white
    space at either end. *)
Lemma trim_no_outer_ws (s : jsstring) :
  trim s <> [] -> no_outer_ws (trim s) = true.
Proof.
  intros Hne. unfold no_outer_ws. apply andb_true_iff.
  unfold trim, trimEnd in *.
  set (u := trimStart s) in *.
  destruct (trimStart_suffix (rev u)) as [pre [E Hpre]].
  destruct (trimStart (rev u)) as [| d v] eqn:Hv; [destruct (Hne eq_refl) |].
  pose proof (trimStart_head (rev u) d v Hv) as Hd.
  split.
  - (* the first code unit is the first of [trimStart s] *)
    assert (Eu : u = rev (d :: v) ++ rev pre).
    { rewrite <- rev_app_distr, <- E, rev_involutive. reflexivity. }
    destruct (rev (d :: v)) as [| c r] eqn:Hr.
    + apply (f_equal (@List.length N)) in Hr.
      rewrite length_rev in Hr. discriminate.
    + cbn. cbn in Eu. subst u. rewrite (trimStart_head s c _ Eu). reflexivity.
  - cbn [rev]. rewrite last_last, Hd. reflexivity.
Qed.

Lemma trimEnd_fixed (s : jsstring) :
  s <> [] -> is_ws (last s 32%N) = false -> trimEnd s = s.
Proof.
  intros Hne Hl. unfold trimEnd.
  rewrite trimStart_fixed; [apply rev_involutive |].
  destruct (rev s) as [| c r] eqn:Hr.
  - apply (f_equal (@rev N)) in Hr. rewrite rev_involutive in Hr.
    destruct (Hne Hr).
  - apply (f_equal (@rev N)) in Hr. rewrite rev_involutive in Hr. cbn in Hr.
    subst s. rewrite last_last in Hl. exact Hl.
Qed.

Lemma trim_idempotent (s : jsstring) : trim (trim s) = trim s.
Proof.
  destruct (trim s) as [| c r] eqn:Ht; [reflexivity |].
  assert (Hne : trim s <> []) by (rewrite Ht; discriminate).
  pose proof (trim_no_outer_ws s Hne) as Hno. rewrite Ht in Hno.
  unfold no_outer_ws in Hno. apply andb_true_iff in Hno.
  destruct Hno as [Hh Hl]. apply negb_true_iff in Hh, Hl.
  unfold trim. rewrite (trimStart_fixed (c :: r) Hh).
  apply trimEnd_fixed; [discriminate | exact Hl].
Qed.

(* ================================================================= *)
(** * Further properties of HeroService *)



Section MoreServiceProperties.

Variable store : Store.


(** X2.  [searchHeroes] stays off the network exactly for the terms made
    of white space only (the empty term included).  Any other term is sent
    as it was typed, outer blanks and all, after [api/heroes/?name=]. *)
Theorem searchHeroes_reaches_network_iff (term : jsstring) :
  (forallb is_ws term = true -> searchHeroes term = of_ []) /\
  (forallb is_ws term = false ->
   forall w, exists k,
     subscribe (searchHeroes term) w = (Waiting k, send (search_request term) w)).
Proof.
  split; intros Hws.
  - apply trim_nil_iff in Hws. unfold searchHeroes.
    rewrite (trim_blank_falsy _ Hws). reflexivity.
  - assert (Hne : trim term <> []).
    { intros E. apply trim_nil_iff in E. congruence. }
    intros w. unfold searchHeroes. rewrite (trim_nonblank_truthy _ Hne).
    eexists. reflexivity.
Qed.

End MoreServiceProperties.


Lemma searchHeroes_reaches_network_iff_witness :
  forallb is_ws (9%N :: lit "  ") = true /\
  searchHeroes (9%N :: lit "  ") = of_ [] /\
  forallb is_ws (lit " bat ") = false /\
  exists k,
    subscribe (searchHeroes (lit " bat ")) emptyWorld =
      (Waiting k, send (search_request (lit " bat ")) emptyWorld).
Proof.
  split; [reflexivity |].
  split; [exact (proj1 (searchHeroes_reaches_network_iff (9%N :: lit "  ")) eq_refl) |].
  split; [reflexivity |].
  exact (proj2 (searchHeroes_reaches_network_iff (lit " bat ")) eq_refl emptyWorld).
Defined.

(* ================================================================= *)
(** * Further properties of HeroesComponent *)

Import HeroesComponent.

Lemma filter_differs_absent (hero : Hero) (l : list (option Hero)) :
  ~ In (Some hero) l -> filter (differs hero) l = l.
Proof.
  induction l as [| h l IH]; intros Hnot; [reflexivity |].
  cbn. destruct (differs hero h) eqn:E.
  - f_equal. apply IH. intros Hin. apply Hnot. right. exact Hin.
  - apply differs_false_iff in E. destruct Hnot. left. exact E.
Qed.

Lemma filter_differs_idempotent (hero : Hero) (l : list (option Hero)) :
  filter (differs hero) (filter (differs hero) l) = filter (differs hero) l.
Proof.
  apply filter_differs_absent. rewrite filter_differs_in. tauto.
Qed.

Lemma filter_differs_snoc (hero : Hero) (l : list (option Hero)) :
  ~ In (Some hero) l -> filter (differs hero) (l ++ [Some hero]) = l.
Proof.
  intros Hnot. rewrite filter_app, (filter_differs_absent hero l Hnot).
  cbn. rewrite Nat.eqb_refl. cbn. apply app_nil_r.
Qed.

Lemma filter_differs_undefined (hero : Hero) (l : list (option Hero)) :
  filter (fun h => negb (defined h)) (filter (differs hero) l) =
  filter (fun h => negb (defined h)) l.
Proof.
  induction l as [| [r |] l IH]; [reflexivity | |].
  - cbn. destruct (negb (Nat.eqb r hero)); cbn; exact IH.
  - cbn. f_equal. exact IH.
Qed.

Section MoreComponentProperties.

Variable store : Store.

(** X3.  [add(name)] with a name that is not all white space posts the
    name trimmed: the body has no id, its name is not empty and neither
    starts nor ends with white space (trimming it again changes nothing).
    Until the answer arrives the view and the message sink are as before. *)
Theorem add_posts_trimmed_name (name : jsstring) (c : State) :
  trim name <> [] ->
  exists k c1,
    add store name c = (c1, Some k) /\
    heroes c1 = heroes c /\
    messages (world c1) = messages (world c) /\
    requests (world c1) =
      requests (world c) ++
      [mkRequest POST (lit "api/heroes") (Some (mkHero undefined (trim name))) true] /\
    no_outer_ws (trim name) = true /\
    trim (trim name) = trim name.
Proof.
  intros Hname. unfold add. rewrite (trim_nonblank_truthy _ Hname).
  eexists. eexists. split; [reflexivity |]. cbn.
  repeat split; [apply trim_no_outer_ws; exact Hname | apply trim_idempotent].
Qed.

(** X4.  When the create succeeds, the hero the server returned is logged
    with the id the server gave it and appended to the view if the view is
    a list by then; if the answer comes while [heroes] is still undefined
    (the list has not arrived), the hero is not shown. *)
Theorem add_success_appends_or_drops (name : jsstring) (c : State) :
  trim name <> [] ->
  exists k,
    snd (add store name c) = Some k /\
    forall hero c', exists w'',
      answered k add_next (Next hero) c' =
        (mkState
           match heroes c' with
           | Some l => Some (l ++ [Some hero])
           | None => None
           end w'', None) /\
      requests w'' = requests (world c') /\
      messages w'' =
        messages (world c') ++
        [lit "HeroService: " ++ lit "added hero with id=" ++ show (id (store hero))].
Proof.
  intros Hname. unfold add. rewrite (trim_nonblank_truthy _ Hname).
  eexists. split; [reflexivity |].
  intros hero c'. unfold answered, subscribe_next. cbn. unfold add_next. cbn.
  destruct c' as [[l |] w]; cbn;
    (eexists; split; [reflexivity | split; reflexivity]).
Qed.

(** X5.  Deleting a hero that is not in the view leaves the view as it is
    but still sends the DELETE request. *)
Theorem delete_absent_still_requests (hero : Hero) (c : State)
  (l : list (option Hero)) :
  heroes c = Some l ->
  ~ In (Some hero) l ->
  exists k c1,
    delete store hero c = (c1, Some k) /\
    heroes c1 = Some l /\
    requests (world c1) =
      requests (world c) ++
      [mkRequest DELETE (lit "api/heroes" ++ lit "/" ++ show (id (store hero)))
         None true].
Proof.
  intros Hview Hnot. unfold delete. rewrite Hview.
  eexists. eexists. split; [reflexivity |]. cbn.
  rewrite (filter_differs_absent hero l Hnot). split; reflexivity.
Qed.

(** X6.  Deleting the same hero twice: the second call finds the view
    already without it and changes nothing there, yet a second DELETE
    request goes out. *)
Theorem delete_twice (hero : Hero) (c : State) (l : list (option Hero)) :
  heroes c = Some l ->
  exists k1 c1 k2 c2,
    delete store hero c = (c1, Some k1) /\
    delete store hero c1 = (c2, Some k2) /\
    heroes c2 = heroes c1 /\
    List.length (requests (world c2)) = 2 + List.length (requests (world c)).
Proof.
  intros Hview. unfold delete. rewrite Hview. cbn.
  do 4 eexists. split; [reflexivity |]. split; [reflexivity |]. cbn.
  rewrite filter_differs_idempotent. split; [reflexivity |].
  rewrite !length_app. cbn. lia.
Qed.

(** X7.  What becomes of the [undefined] entries failed creates leave in
    the view.  [delete] called on a hero object never removes one: the
    view has as many of them after as before.  [delete] called on such an
    entry, that is with [undefined], removes all of them at once and keeps
    every hero, but [deleteHero(undefined)] throws before a request is
    built: nothing is sent and nothing is left in flight. *)
Theorem undefined_entries_and_delete (c : State) (l : list (option Hero)) :
  heroes c = Some l ->
  (forall hero, exists l',
     heroes (fst (delete_entry store (Some hero) c)) = Some l' /\
     filter (fun h => negb (defined h)) l' = filter (fun h => negb (defined h)) l) /\
  (delete_entry store None c = (set_heroes (filter defined l) c, None) /\
   ~ In None (filter defined l) /\
   (forall hero, In (Some hero) (filter defined l) <-> In (Some hero) l) /\
   world (fst (delete_entry store None c)) = world c).
Proof.
  intros Hview. split.
  - intros hero. unfold delete_entry, delete. rewrite Hview. cbn.
    eexists. split; [reflexivity |]. apply filter_differs_undefined.
  - unfold delete_entry. rewrite Hview. split; [reflexivity |].
    split; [| split; [| reflexivity]].
    + rewrite filter_In. intros [_ H]. discriminate.
    + intros hero. rewrite filter_In. cbn. tauto.
Qed.

(** X8.  [getHeroes()] of the component leaves the view alone until the
    answer arrives; the answer then replaces the view wholesale, by the
    list received or, on failure, by the empty list, whatever the view held
    at that moment. *)
Theorem getHeroes_replaces_view (c : State) :
  exists k c1,
    getHeroes c = (c1, Some k) /\
    heroes c1 = heroes c /\
    forall answer c',
      heroes (fst (answered k getHeroes_next answer c')) =
        Some (map Some (batch_of answer)) /\
      snd (answered k getHeroes_next answer c') = None.
Proof.
  eexists. eexists. split; [reflexivity |]. split; [reflexivity |].
  intros [S | e] c'; split; reflexivity.
Qed.

(** X9.  Adding a hero and deleting it again gives back the view one
    started with: after a successful create has appended [hero] to the view
    [l], which did not show that object before, [delete(hero)] leaves
    exactly [l]. *)
Theorem add_then_delete_restores_view (name : jsstring) (hero : Hero)
  (c : State) (l : list (option Hero)) :
  trim name <> [] ->
  heroes c = Some l ->
  ~ In (Some hero) l ->
  exists k,
    snd (add store name c) = Some k /\
    heroes (fst (delete store hero
                   (fst (answered k add_next (Next hero)
                           (fst (add store name c)))))) = Some l.
Proof.
  intros Hname Hview Hnot. unfold add. rewrite (trim_nonblank_truthy _ Hname).
  eexists. split; [reflexivity |].
  unfold answered, subscribe_next. cbn. unfold add_next. cbn.
  rewrite Hview. unfold delete.
  cbn [fst snd heroes world set_heroes set_world].
  unfold upcast, subtype_undefined.
  rewrite (filter_differs_snoc hero l Hnot). reflexivity.
Qed.

End MoreComponentProperties.

Lemma add_posts_trimmed_name_witness :
  trim (lit " Nova ") <> [] /\
  exists k c1,
    add twins (lit " Nova ") twins_view = (c1, Some k) /\
    requests (world c1) =
      [mkRequest POST (lit "api/heroes") (Some (mkHero undefined (lit "Nova"))) true].
Proof.
  assert (H : trim (lit " Nova ") <> []) by (vm_compute; discriminate).
  split; [exact H |].
  destruct (add_posts_trimmed_name twins (lit " Nova ") twins_view H)
    as [k [c1 [Hadd [_ [_ [Hreq _]]]]]].
  exists k, c1. split; [exact Hadd | exact Hreq].
Defined.

Lemma add_success_appends_or_drops_witness :
  trim (lit "Nova") <> [] /\
  exists k w'',
    snd (add twins (lit "Nova") twins_view) = Some k /\
    answered k add_next (Next 3) twins_view =
      (mkState (Some ([Some 1; Some 2] ++ [Some 3])) w'', None).
Proof.
  assert (H : trim (lit "Nova") <> []) by (vm_compute; discriminate).
  split; [exact H |].
  destruct (add_success_appends_or_drops twins (lit "Nova") twins_view H)
    as [k [Hk Hans]].
  destruct (Hans 3 twins_view) as [w'' [Ha _]].
  exists k, w''. split; [exact Hk | exact Ha].
Defined.

Lemma delete_absent_still_requests_witness :
  heroes roster_view = Some [Some 42; Some 7] /\
  ~ In (Some 5) [Some 42; Some 7] /\
  exists k c1,
    delete roster 5 roster_view = (c1, Some k) /\
    heroes c1 = Some [Some 42; Some 7] /\
    requests (world c1) =
      [mkRequest DELETE (lit "api/heroes/5") None true].
Proof.
  assert (Hnot : ~ In (Some 5) [Some 42; Some 7])
    by (intros [H | [H | []]]; discriminate).
  split; [reflexivity |]. split; [exact Hnot |].
  exact (delete_absent_still_requests roster 5 roster_view
           [Some 42; Some 7] eq_refl Hnot).
Defined.

Lemma delete_twice_witness :
  heroes roster_view = Some [Some 42; Some 7] /\
  exists k1 c1 k2 c2,
    delete roster 42 roster_view = (c1, Some k1) /\
    delete roster 42 c1 = (c2, Some k2) /\
    heroes c2 = heroes c1 /\
    List.length (requests (world c2)) = 2 + List.length (requests (world roster_view)).
Proof.
  split; [reflexivity |].
  exact (delete_twice roster 42 roster_view [Some 42; Some 7] eq_refl).
Defined.

Lemma undefined_entries_and_delete_witness :
  heroes (mkState (Some [None; Some 4; None]) emptyWorld) =
    Some [None; Some 4; None] /\
  (exists l',
     heroes (fst (delete_entry roster (Some 4)
                    (mkState (Some [None; Some 4; None]) emptyWorld))) = Some l' /\
     filter (fun h => negb (defined h)) l' = [None; None]) /\
  delete_entry roster None (mkState (Some [None; Some 4; None]) emptyWorld) =
    (mkState (Some [Some 4]) emptyWorld, None).
Proof.
  destruct (undefined_entries_and_delete roster
              (mkState (Some [None; Some 4; None]) emptyWorld)
              [None; Some 4; None] eq_refl) as [Hobj [Hundef _]].
  split; [reflexivity |]. split; [exact (Hobj 4) | exact Hundef].
Defined.

Lemma add_then_delete_restores_view_witness :
  trim (lit "Nova") <> [] /\
  heroes twins_view = Some [Some 1; Some 2] /\
  ~ In (Some 3) [Some 1; Some 2] /\
  exists k,
    snd (add twins (lit "Nova") twins_view) = Some k /\
    heroes (fst (delete twins 3
                   (fst (answered k add_next (Next 3)
                           (fst (add twins (lit "Nova") twins_view)))))) =
      Some [Some 1; Some 2].
Proof.
  assert (H : trim (lit "Nova") <> []) by (vm_compute; discriminate).
  assert (Hnot : ~ In (Some 3) [Some 1; Some 2])
    by (intros [E | [E | []]]; discriminate).
  split; [exact H |]. split; [reflexivity |]. split; [exact Hnot |].
  exact (add_then_delete_restores_view twins (lit "Nova") 3 twins_view
           [Some 1; Some 2] H eq_refl Hnot).
Defined.

(* ================================================================= *)
(** * Further properties of the search pipeline *)

Import HeroSearchComponent.

Lemma search_subscribe_nonblank (term : jsstring) (w : World) :
  trim term <> [] ->
  subscribe (searchHeroes term) w =
    (Waiting (search_continuation term), send (search_request term) w).
Proof.
  intros Hne. unfold searchHeroes. rewrite (trim_nonblank_truthy _ Hne).
  reflexivity.
Qed.

Lemma search_subscribe_blank (term : jsstring) (w : World) :
  trim term = [] -> subscribe (searchHeroes term) w = (Emitted [], w).
Proof.
  intros Hb. unfold searchHeroes. rewrite (trim_blank_falsy _ Hb). reflexivity.
Qed.

Lemma search_continuation_answer (term : jsstring)
  (answer : Notification (list Hero)) (w : World) :
  exists w',
    subscribe (search_continuation term answer) w = (Emitted (batch_of answer), w') /\
    requests w' = requests w /\
    messages w' = messages w ++ [search_message term answer] /\
    console w' = console w ++ match answer with Err e => [e] | Next _ => [] end.
Proof.
  destruct answer as [[| h x] | e]; eexists; (split; [reflexivity |]); cbn;
    rewrite ?app_nil_r; auto.
Qed.

Lemma no_adjacent_equal_snoc (l : list jsstring) (t : jsstring) :
  no_adjacent_equal (l ++ [t]) =
    no_adjacent_equal l &&
    match last (map Some l) None with
    | Some x => negb (Js.eqb x t)
    | None => true
    end.
Proof.
  induction l as [| a l IH]; [reflexivity |].
  destruct l as [| b l].
  - cbn. rewrite andb_true_r. reflexivity.
  - change (no_adjacent_equal ((a :: b :: l) ++ [t]))
      with (negb (Js.eqb a b) && no_adjacent_equal ((b :: l) ++ [t])).
    rewrite IH.
    change (no_adjacent_equal (a :: b :: l))
      with (negb (Js.eqb a b) && no_adjacent_equal (b :: l)).
    change (last (map Some (a :: b :: l)) None)
      with (last (map Some (b :: l)) (@None jsstring)).
    apply andb_assoc.
Qed.

Lemma last_map_snoc (l : list jsstring) (t : jsstring) :
  last (map Some (l ++ [t])) None = Some t.
Proof. rewrite map_app. cbn. apply last_last. Qed.

Lemma nth_error_snoc_cases {A : Type} (l : list A) (x y : A) (n : nat) :
  nth_error (l ++ [x]) n = Some y ->
  nth_error l n = Some y \/ (n = List.length l /\ y = x).
Proof.
  intros H. destruct (Nat.lt_ge_cases n (List.length l)) as [Hlt | Hge].
  - left. rewrite nth_error_app1 in H; assumption.
  - right. rewrite nth_error_app2 in H by exact Hge.
    destruct (n - List.length l) as [| m] eqn:E.
    + cbn in H. injection H as <-. split; [lia | reflexivity].
    + cbn in H. destruct m; discriminate.
Qed.

(** *** The invariant of reachable states *)

Lemma init_sound : sound init.
Proof.
  constructor; cbn; trivial.
  intros [| call] term H; discriminate.
Qed.

Lemma sound_set_lastValue (v : option (jsstring * N)) (s : State) :
  sound s -> sound (set_lastValue v s).
Proof. intros [H1 H2 H3 H4 H5 H6]. constructor; assumption. Qed.

Lemma sound_switch (term : jsstring) (s : State) :
  sound s -> key s <> Some term ->
  sound (switchMap_next term (set_key (Some term) s)).
Proof.
  intros [H1 H2 H3 H4 H5 H6] Hk.
  assert (Hd : no_adjacent_equal (dispatched s ++ [term]) = true).
  { rewrite no_adjacent_equal_snoc, H3, <- H2. cbn.
    destruct (key s) as [k |]; [| reflexivity].
    destruct (Js.eqb k term) eqn:E; [| reflexivity].
    apply jseqb_eq in E. congruence. }
  unfold switchMap_next. cbn [world record_call unsubscribe_inner set_key dispatched].
  destruct (trim term) as [| c r] eqn:Ht.
  - rewrite (search_subscribe_blank term _ Ht). constructor; cbn.
    + exact H1.
    + symmetry. apply last_map_snoc.
    + exact Hd.
    + rewrite filter_app. cbn. unfold nonblank at 2. rewrite Ht. cbn.
      rewrite app_nil_r. exact H4.
    + exact I.
    + intros call t Hn Hb. apply in_or_app.
      destruct (nth_error_snoc_cases _ _ _ _ Hn) as [Hold | [-> _]].
      * left. exact (H6 call t Hold Hb).
      * right. left. reflexivity.
  - assert (Hne : trim term <> []) by (rewrite Ht; discriminate).
    rewrite (search_subscribe_nonblank term _ Hne). constructor; cbn.
    + exact H1.
    + symmetry. apply last_map_snoc.
    + exact Hd.
    + rewrite filter_app, map_app. cbn. unfold nonblank at 2. rewrite Ht. cbn.
      rewrite H4. reflexivity.
    + exists term. repeat split.
      * rewrite length_app. cbn. lia.
      * rewrite nth_error_app2, Nat.sub_diag by lia. reflexivity.
      * exact Hne.
      * rewrite length_app. cbn. lia.
    + intros call t Hn Hb.
      destruct (nth_error_snoc_cases _ _ _ _ Hn) as [Hold | [_ ->]].
      * exact (H6 call t Hold Hb).
      * congruence.
Qed.

Lemma sound_distinct_next (term : jsstring) (s : State) :
  sound s -> sound (distinct_next term s).
Proof.
  intros Hs. unfold distinct_next.
  destruct (key s) as [k |] eqn:Hk.
  - destruct (Js.eqb k term) eqn:E; [exact Hs |].
    apply sound_switch; [exact Hs |].
    rewrite Hk. intros E'. injection E' as ->. rewrite jseqb_refl in E. discriminate.
  - apply sound_switch; [exact Hs | rewrite Hk; discriminate].
Qed.

Lemma sound_respond (req : nat) (answer : Notification (list Hero)) (s : State) :
  sound s -> sound (respond req answer s).
Proof.
  intros Hs. pose proof Hs as [H1 H2 H3 H4 H5 H6]. unfold respond.
  destruct (inner s) as [[[req' call] k] |]; [| exact Hs].
  destruct (Nat.eqb req req'); [| exact Hs].
  destruct H5 as [term [_ [_ [_ [-> _]]]]].
  destruct (search_continuation_answer term answer (world s)) as [w' [E [R _]]].
  cbn [world unsubscribe_inner]. rewrite E. constructor; cbn.
  - exact H1.
  - exact H2.
  - exact H3.
  - rewrite R. exact H4.
  - exact I.
  - intros c t Hn Hb. apply in_or_app. left. exact (H6 c t Hn Hb).
Qed.

Section SoundRuns.

Variable timer_first : N -> bool.

Lemma sound_advance (now : N) (s : State) :
  sound s -> sound (advance timer_first now s).
Proof.
  intros Hs. unfold advance, debounce_fire.
  destruct (debounce_due timer_first now s); [| exact Hs].
  destruct (lastValue s) as [[term due] |]; [| exact Hs].
  apply sound_distinct_next, sound_set_lastValue. exact Hs.
Qed.

Lemma sound_perform (now : N) (a : action) (s : State) :
  sound s -> sound (perform now a s).
Proof.
  intros Hs. destruct a as [term | req answer |]; cbn.
  - apply (sound_set_lastValue _ s Hs).
  - apply sound_respond. exact Hs.
  - exact Hs.
Qed.

Lemma sound_step (ev : event) (s : State) :
  sound s -> sound (step timer_first ev s).
Proof.
  intros Hs. unfold step.
  rewrite (alive_live _ s (sound_alive s Hs)).
  pose proof (sound_advance (at_ ev) s Hs) as Ha.
  rewrite (alive_live _ _ (sound_alive _ Ha)).
  apply sound_perform. exact Ha.
Qed.

Lemma sound_run (evs : list event) :
  forall s, sound s -> sound (run timer_first evs s).
Proof.
  induction evs as [| ev evs IH]; intros s Hs; [exact Hs |].
  rewrite run_cons. apply IH, sound_step. exact Hs.
Qed.

End SoundRuns.

Lemma sorted_length_bound (l : list nat) :
  StronglySorted lt l ->
  forall m n, Forall (fun c => m <= c < n) l -> List.length l <= n - m.
Proof.
  induction 1 as [| a l Hs IH Ha]; intros m n Hb; cbn; [lia |].
  inversion Hb as [| ? ? Hab Hl]; subst.
  assert (Hl' : Forall (fun c => S a <= c < n) l).
  { rewrite Forall_forall in *. intros c Hc.
    specialize (Ha c Hc). specialize (Hl c Hc). lia. }
  specialize (IH (S a) n Hl'). lia.
Qed.

Lemma sorted_NoDup (l : list nat) : StronglySorted lt l -> NoDup l.
Proof.
  induction 1 as [| a l Hs IH Ha]; constructor; [| exact IH].
  intros Hin. rewrite Forall_forall in Ha. specialize (Ha a Hin). lia.
Qed.

Lemma submissions_app (evs1 evs2 : list event) :
  submissions (evs1 ++ evs2) = submissions evs1 ++ submissions evs2.
Proof.
  induction evs1 as [| ev evs1 IH]; [reflexivity |].
  cbn. destruct (act ev); rewrite IH; reflexivity.
Qed.

Lemma submissions_nil_head (ev : event) (evs : list event) :
  submissions (ev :: evs) = [] ->
  (forall term, act ev <> Submit term) /\ submissions evs = [].
Proof.
  cbn. destruct (act ev); intros H; [discriminate | |];
    (split; [discriminate | exact H]).
Qed.

(** What [distinctUntilChanged] and [switchMap] add to the searches made
    when [term] comes out of the debounce. *)
Lemma distinct_next_dispatched (term : jsstring) (s : State) :
  dispatched (distinct_next term s) =
    dispatched s ++
    match key s with
    | Some k => if Js.eqb k term then [] else [term]
    | None => [term]
    end.
Proof.
  unfold distinct_next.
  destruct (switchMap_next_frame term (set_key (Some term) s)) as [_ [_ H]].
  destruct (key s) as [k |]; [destruct (Js.eqb k term) |];
    [rewrite app_nil_r; reflexivity | exact H | exact H].
Qed.

Section MorePipelineProperties.

Variable timer_first : N -> bool.

(** X10.  The search stream never ends with an error: after any sequence
    of submissions, answers (failures included) and idle time, the
    subscription is still alive. *)
Theorem pipeline_never_fails (evs : list event) :
  failure (run timer_first evs init) = None.
Proof. exact (sound_alive _ (sound_run timer_first evs init init_sound)). Qed.

(** X11.  The requests the pipeline has sent are exactly the GETs for the
    searches it made with a term that is not blank, one each and in the
    order of the searches; a blank term never reaches the network. *)
Theorem pipeline_requests_are_nonblank_searches (evs : list event) :
  requests (world (run timer_first evs init)) =
    map search_request (filter nonblank (dispatched (run timer_first evs init))).
Proof. exact (sound_requests _ (sound_run timer_first evs init init_sound)). Qed.

(** X12.  No two consecutive searches are for the same term, and the term
    [distinctUntilChanged] compares against is always the term of the
    latest search. *)
Theorem consecutive_searches_differ (evs : list event) :
  no_adjacent_equal (dispatched (run timer_first evs init)) = true /\
  key (run timer_first evs init) =
    last (map Some (dispatched (run timer_first evs init))) None.
Proof.
  pose proof (sound_run timer_first evs init init_sound) as Hs.
  split; [exact (sound_distinct _ Hs) | exact (sound_key _ Hs)].
Qed.

(** X13.  In any reachable state with a search in flight, that search is
    the latest one, its request is the last one sent, and its answer is
    observed as one batch: the heroes received, or the empty list when the
    transport failed.  The failure goes to the console and the sink, and
    the stream goes on with nothing in flight. *)
Theorem answer_to_current_search_is_observed (evs : list event)
  (req call : nat) (k : Inner) (answer : Notification (list Hero)) :
  let s := run timer_first evs init in
  inner s = Some (req, call, k) ->
  exists term,
    dispatched s = firstn call (dispatched s) ++ [term] /\
    requests (world s) = firstn req (requests (world s)) ++ [search_request term] /\
    observed (respond req answer s) = observed s ++ [(call, batch_of answer)] /\
    inner (respond req answer s) = None /\
    failure (respond req answer s) = None /\
    messages (world (respond req answer s)) =
      messages (world s) ++ [search_message term answer] /\
    console (world (respond req answer s)) =
      console (world s) ++ match answer with Err e => [e] | Next _ => [] end.
Proof.
  intros s Hin.
  pose proof (sound_run timer_first evs init init_sound) as Hs.
  fold s in Hs. destruct Hs as [H1 H2 H3 H4 H5 H6].
  rewrite Hin in H5. destruct H5 as [term [Hcall [Hnth [Hne [-> Hreq]]]]].
  exists term.
  destruct (nth_error_split _ _ Hnth) as [l1 [l2 [E Hl]]].
  assert (El : dispatched s = l1 ++ [term]).
  { rewrite E in Hcall |- *. rewrite length_app in Hcall. cbn in Hcall.
    destruct l2; [reflexivity | cbn in Hcall; lia]. }
  assert (ER : requests (world s) =
               map search_request (filter nonblank l1) ++ [search_request term]).
  { rewrite H4, El, filter_app, map_app. cbn. unfold nonblank at 2.
    rewrite (trim_nonblank_truthy _ Hne). reflexivity. }
  split.
  { rewrite El at 1. rewrite El, <- Hl, firstn_app, firstn_all, Nat.sub_diag. cbn.
    rewrite app_nil_r. reflexivity. }
  split.
  { rewrite ER in Hreq. rewrite length_app in Hreq. cbn in Hreq.
    assert (Hr : req = List.length (map search_request (filter nonblank l1))) by lia.
    rewrite ER at 1. rewrite ER, Hr, firstn_app, firstn_all, Nat.sub_diag. cbn.
    rewrite app_nil_r. reflexivity. }
  unfold respond. rewrite Hin, Nat.eqb_refl.
  destruct (search_continuation_answer term answer (world s)) as [w' [Ew [R [M C]]]].
  cbn [world unsubscribe_inner]. rewrite Ew. cbn.
  repeat split; assumption.
Qed.

(** X14.  Once the latest search is one for a blank term, nothing is in
    flight: the empty batch of that search has been observed, and no answer
    that arrives, for whatever request, changes anything. *)
Theorem blank_search_leaves_nothing_in_flight (evs : list event)
  (d : list jsstring) (term : jsstring) :
  let s := run timer_first evs init in
  dispatched s = d ++ [term] ->
  trim term = [] ->
  inner s = None /\
  In (List.length d, []) (observed s) /\
  requests (world s) = map search_request (filter nonblank d) /\
  forall req answer, respond req answer s = s.
Proof.
  intros s Hd Hb.
  pose proof (sound_run timer_first evs init init_sound) as Hs.
  fold s in Hs. destruct Hs as [H1 H2 H3 H4 H5 H6].
  assert (Hnth : nth_error (dispatched s) (List.length d) = Some term)
    by (rewrite Hd, nth_error_app2, Nat.sub_diag by lia; reflexivity).
  assert (Hin : inner s = None).
  { destruct (inner s) as [[[req call] k] |]; [| reflexivity].
    destruct H5 as [t [Hcall [Hn [Hne _]]]].
    rewrite Hd, length_app in Hcall. cbn in Hcall.
    assert (call = List.length d) by lia. subst call. congruence. }
  split; [exact Hin |]. split; [exact (H6 _ _ Hnth Hb) |]. split.
  - rewrite H4, Hd, filter_app. cbn. unfold nonblank at 2.
    rewrite (trim_blank_falsy _ Hb). cbn. rewrite app_nil_r. reflexivity.
  - intros req answer. unfold respond. rewrite Hin. reflexivity.
Qed.

(** X15.  The subscriber gets at most one batch for each search and never
    a batch without a search: the batches observed belong to different
    calls of [searchHeroes], and there are no more of them than calls. *)
Theorem one_batch_per_search_at_most (evs : list event) :
  NoDup (tags (run timer_first evs init)) /\
  List.length (observed (run timer_first evs init)) <=
    List.length (dispatched (run timer_first evs init)).
Proof.
  destruct (run_follows timer_first evs init init_in_call_order)
    as [[Hs [Hlt _]] _].
  split; [apply sorted_NoDup; exact Hs |].
  unfold tags in *. rewrite <- (length_map fst (observed _)).
  rewrite <- (Nat.sub_0_r (List.length (dispatched _))).
  apply sorted_length_bound; [exact Hs |].
  eapply Forall_impl; [| exact Hlt]. cbn. intros c Hc. lia.
Qed.

(** A term is pending and nothing else is submitted: by the time the
    debounce is over it has gone downstream exactly once. *)
Lemma pending_term_goes_downstream (evs : list event) :
  forall s term due t',
    sound s ->
    lastValue s = Some (term, due) ->
    submissions evs = [] ->
    (due < t')%N ->
    dispatched (run timer_first (evs ++ [mkEvent t' Idle]) s) =
      dispatched s ++
      match key s with
      | Some k => if Js.eqb k term then [] else [term]
      | None => [term]
      end.
Proof.
  induction evs as [| ev evs IH]; intros s term due t' Hs Hl Hsub Hlt.
  - cbn [app]. rewrite run_cons.
    rewrite (step_idle_due timer_first t' s term due Hl Hlt (sound_alive s Hs)).
    cbn [run fold_left]. apply (distinct_next_dispatched term (set_lastValue None s)).
  - destruct (submissions_nil_head ev evs Hsub) as [Hns Hsub'].
    cbn [app]. rewrite run_cons.
    destruct (debounce_due timer_first (at_ ev) s) eqn:Hdue.
    + assert (Hq : submissions (evs ++ [mkEvent t' Idle]) = [])
        by (rewrite submissions_app, Hsub'; reflexivity).
      assert (Hstep : lastValue (step timer_first ev s) = None /\
                      dispatched (step timer_first ev s) =
                        dispatched (distinct_next term (set_lastValue None s))).
      { unfold step. rewrite (alive_live _ s (sound_alive s Hs)).
        unfold advance. rewrite Hdue. unfold debounce_fire. rewrite Hl.
        set (d := distinct_next term (set_lastValue None s)).
        assert (Hdl : lastValue d = None)
          by (subst d; rewrite (proj1 (distinct_next_frame _ _)); reflexivity).
        destruct (alive_cases (perform (at_ ev) (act ev)) d) as [[_ ->] | [_ ->]];
          [| split; [exact Hdl | reflexivity]].
        destruct (perform_frame (at_ ev) (act ev) d Hns) as [P1 P2].
        rewrite P1, P2. split; [exact Hdl | reflexivity]. }
      destruct Hstep as [S1 S2].
      rewrite (run_quiet timer_first _ _ S1 Hq), S2.
      apply (distinct_next_dispatched term (set_lastValue None s)).
    + destruct (step_quiet timer_first ev s Hdue Hns) as [Q1 Q2].
      pose proof (sound_step timer_first ev s Hs) as Hs'.
      rewrite (IH (step timer_first ev s) term due t' Hs'); try assumption.
      * rewrite Q2, (sound_key _ Hs'), (sound_key _ Hs), Q2. reflexivity.
      * rewrite Q1. exact Hl.
Qed.

(** X16.  A term submitted when nothing is pending and left alone for more
    than 300 ms (answers may arrive and time may pass meanwhile, but
    nothing else is typed) is searched exactly once, unless it is the term
    of the latest search, in which case it is not searched at all. *)
Theorem lone_term_is_searched_once (evs0 evs : list event) (term : jsstring)
  (t t' : N) :
  let s := run timer_first evs0 init in
  lastValue s = None ->
  submissions evs = [] ->
  (t + dueTime < t')%N ->
  dispatched
    (run timer_first (mkEvent t (Submit term) :: evs ++ [mkEvent t' Idle]) s) =
    dispatched s ++
    match key s with
    | Some k => if Js.eqb k term then [] else [term]
    | None => [term]
    end.
Proof.
  intros s Hl Hsub Hlt.
  pose proof (sound_run timer_first evs0 init init_sound) as Hs. fold s in Hs.
  rewrite run_cons.
  assert (Hnd : debounce_due timer_first t s = false)
    by (unfold debounce_due; rewrite Hl; reflexivity).
  rewrite (step_submit timer_first (mkEvent t (Submit term)) term s Hnd eq_refl
             (sound_alive s Hs)).
  apply (pending_term_goes_downstream evs (debounce_next t term s) term
           (t + dueTime)%N t'); try assumption; try reflexivity.
  apply (sound_set_lastValue _ s Hs).
Qed.

End MorePipelineProperties.

Lemma answer_to_current_search_is_observed_witness :
  inner (run (fun _ => true)
           [mkEvent 0 (Submit (lit "bat")); mkEvent 350 Idle] init) =
    Some (0, 0, search_continuation (lit "bat")) /\
  exists term,
    observed
      (respond 0 (Err (mkError (lit "504")))
         (run (fun _ => true)
            [mkEvent 0 (Submit (lit "bat")); mkEvent 350 Idle] init)) =
      [] ++ [(0, [])] /\
    messages
      (world
         (respond 0 (Err (mkError (lit "504")))
            (run (fun _ => true)
               [mkEvent 0 (Submit (lit "bat")); mkEvent 350 Idle] init))) =
      [] ++ [search_message term (Err (mkError (lit "504")))].
Proof.
  assert (H : inner (run (fun _ => true)
                       [mkEvent 0 (Submit (lit "bat")); mkEvent 350 Idle] init) =
              Some (0, 0, search_continuation (lit "bat"))) by reflexivity.
  split; [exact H |].
  destruct (answer_to_current_search_is_observed (fun _ => true)
              [mkEvent 0 (Submit (lit "bat")); mkEvent 350 Idle]
              0 0 (search_continuation (lit "bat"))
              (Err (mkError (lit "504"))) H)
    as [term [_ [_ [Hobs [_ [_ [Hmsg _]]]]]]].
  exists term. split; [exact Hobs | exact Hmsg].
Defined.

Lemma blank_search_leaves_nothing_in_flight_witness :
  dispatched
    (run (fun _ => true)
       [mkEvent 0 (Submit (lit "bat")); mkEvent 400 (Submit (lit " "));
        mkEvent 800 Idle] init) = [lit "bat"] ++ [lit " "] /\
  trim (lit " ") = [] /\
  inner
    (run (fun _ => true)
       [mkEvent 0 (Submit (lit "bat")); mkEvent 400 (Submit (lit " "));
        mkEvent 800 Idle] init) = None /\
  In (1, [])
    (observed
       (run (fun _ => true)
          [mkEvent 0 (Submit (lit "bat")); mkEvent 400 (Submit (lit " "));
           mkEvent 800 Idle] init)).
Proof.
  assert (Hd : dispatched
                 (run (fun _ => true)
                    [mkEvent 0 (Submit (lit "bat")); mkEvent 400 (Submit (lit " "));
                     mkEvent 800 Idle] init) = [lit "bat"] ++ [lit " "])
    by reflexivity.
  assert (Hb : trim (lit " ") = []) by reflexivity.
  split; [exact Hd |]. split; [exact Hb |].
  destruct (blank_search_leaves_nothing_in_flight (fun _ => true)
              [mkEvent 0 (Submit (lit "bat")); mkEvent 400 (Submit (lit " "));
               mkEvent 800 Idle] [lit "bat"] (lit " ") Hd Hb)
    as [Hin [Hobs _]].
  split; [exact Hin | exact Hobs].
Defined.

Lemma lone_term_is_searched_once_witness :
  lastValue (run (fun _ => false) [] init) = None /\
  submissions [mkEvent 100 (Respond 7 (Next []))] = [] /\
  (0 + dueTime < 301)%N /\
  dispatched
    (run (fun _ => false)
       (mkEvent 0 (Submit (lit "bat")) ::
        [mkEvent 100 (Respond 7 (Next []))] ++ [mkEvent 301 Idle])
       (run (fun _ => false) [] init)) =
    dispatched (run (fun _ => false) [] init) ++ [lit "bat"].
Proof.
  assert (Hlt : (0 + dueTime < 301)%N) by (vm_compute; reflexivity).
  split; [reflexivity |]. split; [reflexivity |]. split; [exact Hlt |].
  exact (lone_term_is_searched_once (fun _ => false) []
           [mkEvent 100 (Respond 7 (Next []))] (lit "bat") 0 301
           eq_refl eq_refl Hlt).
Defined.

(* ================================================================= *)
(** * Properties of HeroDetailComponent *)

Section DetailProperties.

Variable store : Store.
Variable type_error : JsError.
Variable Any : Type.

(** X17.  [save()] sends one PUT and does nothing else until the answer
    comes.  Whatever the answer, saved or failed, and whether or not a hero
    is selected, the answer makes the component go back exactly once and
    leaves one message in the sink: a failed save navigates away like a
    successful one. *)
Theorem save_always_goes_back (c : HeroDetailComponent.State) :
  exists k c1,
    HeroDetailComponent.save store type_error (Any := Any) c = (c1, Some k) /\
    HeroDetailComponent.backs c1 = HeroDetailComponent.backs c /\
    HeroDetailComponent.selectedHeroDetails c1 =
      HeroDetailComponent.selectedHeroDetails c /\
    messages (HeroDetailComponent.world c1) =
      messages (HeroDetailComponent.world c) /\
    requests (HeroDetailComponent.world c1) =
      requests (HeroDetailComponent.world c) ++
      [mkRequest PUT (lit "api/heroes")
         (option_map store (HeroDetailComponent.selectedHeroDetails c)) true] /\
    forall answer c', exists w'',
      HeroDetailComponent.answered k (HeroDetailComponent.save_next (Any := Any))
        answer c' =
        (HeroDetailComponent.mkState
           (HeroDetailComponent.selectedHeroDetails c')
           (S (HeroDetailComponent.backs c')) w'', None) /\
      requests w'' = requests (HeroDetailComponent.world c') /\
      List.length (messages w'') =
        S (List.length (messages (HeroDetailComponent.world c'))).
Proof.
  assert (Hlen : forall (m : jsstring) (l : list jsstring),
             List.length (l ++ [m]) = S (List.length l))
    by (intros m l; rewrite length_app; cbn; lia).
  destruct c as [[h |] b w]; unfold HeroDetailComponent.save; cbn.
  - eexists. eexists. split; [reflexivity |]. cbn.
    do 4 (split; [reflexivity |]).
    intros [v | e] c'; eexists; (split; [reflexivity |]); cbn;
      (split; [reflexivity | apply Hlen]).
  - eexists. eexists. split; [reflexivity |]. cbn.
    do 4 (split; [reflexivity |]).
    intros [v | e] c'; eexists; (split; [reflexivity |]); cbn;
      (split; [reflexivity | apply Hlen]).
Qed.

(** X18.  With no hero selected, [save()] sends a PUT without a body, and
    every answer ends in the failure handler: a successful answer too is
    written to the console and logged as "updateHero failed", with the
    message of the [TypeError] that reading [hero.id] threw. *)
Theorem save_without_selection_reports_failure (c : HeroDetailComponent.State) :
  HeroDetailComponent.selectedHeroDetails c = None ->
  exists k c1,
    HeroDetailComponent.save store type_error (Any := Any) c = (c1, Some k) /\
    requests (HeroDetailComponent.world c1) =
      requests (HeroDetailComponent.world c) ++
      [mkRequest PUT (lit "api/heroes") None true] /\
    forall answer c', exists w'',
      fst (HeroDetailComponent.answered k
             (HeroDetailComponent.save_next (Any := Any)) answer c') =
        HeroDetailComponent.mkState
          (HeroDetailComponent.selectedHeroDetails c')
          (S (HeroDetailComponent.backs c')) w'' /\
      console w'' =
        console (HeroDetailComponent.world c') ++
        [match answer with Next _ => type_error | Err e => e end] /\
      messages w'' =
        messages (HeroDetailComponent.world c') ++
        [lit "HeroService: " ++
         failure_text (lit "updateHero")
           match answer with Next _ => type_error | Err e => e end].
Proof.
  intros Hnone. destruct c as [sel b w]. cbn in Hnone. subst sel.
  unfold HeroDetailComponent.save. cbn.
  eexists. eexists. split; [reflexivity |]. cbn. split; [reflexivity |].
  intros [v | e] c'; eexists; (split; [reflexivity |]); cbn; split; reflexivity.
Qed.

End DetailProperties.

Lemma save_without_selection_reports_failure_witness :
  HeroDetailComponent.selectedHeroDetails
    (HeroDetailComponent.mkState None 0 emptyWorld) = None /\
  exists k c1,
    HeroDetailComponent.save roster (mkError (lit "hero is undefined"))
      (Any := unit) (HeroDetailComponent.mkState None 0 emptyWorld) =
      (c1, Some k) /\
    requests (HeroDetailComponent.world c1) =
      [] ++ [mkRequest PUT (lit "api/heroes") None true].
Proof.
  split; [reflexivity |].
  destruct (save_without_selection_reports_failure roster
              (mkError (lit "hero is undefined")) unit
              (HeroDetailComponent.mkState None 0 emptyWorld) eq_refl)
    as [k [c1 [Hs [Hr _]]]].
  exists k, c1. split; [exact Hs | exact Hr].
Defined.

(* ================================================================= *)
(** * Superseded searches *)

Lemma request_of_call_split (l1 l2 : list jsstring) (t : jsstring) :
  request_of_call (l1 ++ t :: l2) (List.length l1) =
    List.length (filter nonblank l1).
Proof.
  unfold request_of_call.
  rewrite firstn_app, firstn_all, Nat.sub_diag. cbn. rewrite app_nil_r.
  reflexivity.
Qed.

(** The request of a call that is not the latest one is not the request in
    flight: an answer to it is ignored. *)
Lemma superseded_request_is_ignored (s : State) (d1 more : list jsstring)
  (i j : nat) (t1 : jsstring) (answer : Notification (list Hero)) :
  sound s ->
  dispatched s = d1 ++ more ->
  i < j ->
  j < List.length d1 ->
  nth_error d1 i = Some t1 ->
  trim t1 <> [] ->
  respond (request_of_call d1 i) answer s = s.
Proof.
  intros [H1 H2 H3 H4 H5 H6] Hd Hij Hj Hi Ht1. unfold respond.
  destruct (inner s) as [[[req' call] k] |]; [| reflexivity].
  destruct (Nat.eqb_spec (request_of_call d1 i) req') as [Heq | Hneq];
    [exfalso | reflexivity].
  destruct H5 as [term [Hcall [Hnth [Hne [_ Hreq]]]]].
  destruct (nth_error_split _ _ Hi) as [l1 [l2 [E Hl]]].
  subst d1. subst i. rewrite request_of_call_split in Heq.
  rewrite length_app in Hj. cbn in Hj.
  rewrite <- app_assoc in Hd. cbn in Hd.
  rewrite H4, Hd, filter_app, map_app, length_app, !length_map in Hreq.
  cbn in Hreq. unfold nonblank at 2 in Hreq.
  rewrite (trim_nonblank_truthy _ Ht1) in Hreq. cbn in Hreq.
  rewrite Hd, length_app in Hcall. cbn in Hcall. rewrite length_app in Hcall.
  assert (Hin : In term (filter nonblank (l2 ++ more))).
  { apply filter_In. split.
    - rewrite Hd in Hnth.
      rewrite nth_error_app2 in Hnth by lia.
      destruct (call - List.length l1) as [| m] eqn:Em; [lia |].
      cbn in Hnth. apply nth_error_In in Hnth. exact Hnth.
    - unfold nonblank. rewrite (trim_nonblank_truthy _ Hne). reflexivity. }
  destruct (filter nonblank (l2 ++ more)) as [| x rest]; [destruct Hin |].
  cbn in Hreq. lia.
Qed.

Section Supersede.

Variable timer_first : N -> bool.

Lemma advance_dispatched (now : N) (s : State) :
  exists more, dispatched (advance timer_first now s) = dispatched s ++ more.
Proof.
  unfold advance, debounce_fire.
  destruct (debounce_due timer_first now s);
    [| exists []; rewrite app_nil_r; reflexivity].
  destruct (lastValue s) as [[term due] |];
    [| exists []; rewrite app_nil_r; reflexivity].
  rewrite (distinct_next_dispatched term (set_lastValue None s)).
  eexists. reflexivity.
Qed.

Lemma step_dispatched (ev : event) (s : State) :
  exists more, dispatched (step timer_first ev s) = dispatched s ++ more.
Proof.
  unfold step.
  destruct (alive_cases (advance timer_first (at_ ev)) s) as [[_ Ea] | [_ Ea]];
    rewrite Ea.
  - destruct (advance_dispatched (at_ ev) s) as [more Hm].
    exists more. rewrite <- Hm.
    destruct (alive_cases (perform (at_ ev) (act ev))
                (advance timer_first (at_ ev) s)) as [[_ ->] | [_ ->]];
      [| reflexivity].
    destruct (act ev) as [term | req answer |]; cbn; [reflexivity | | reflexivity].
    apply (respond_frame req answer).
  - exists []. rewrite app_nil_r.
    destruct (alive_cases (perform (at_ ev) (act ev)) s) as [[_ ->] | [_ ->]];
      [| reflexivity].
    destruct (act ev) as [term | req answer |]; cbn; [reflexivity | | reflexivity].
    apply (respond_frame req answer).
Qed.

Lemma run_dispatched (evs : list event) :
  forall s, exists more, dispatched (run timer_first evs s) = dispatched s ++ more.
Proof.
  induction evs as [| ev evs IH]; intros s.
  - exists []. rewrite app_nil_r. reflexivity.
  - rewrite run_cons. destruct (step_dispatched ev s) as [m1 H1].
    destruct (IH (step timer_first ev s)) as [m2 H2].
    exists (m1 ++ m2). rewrite H2, H1, app_assoc. reflexivity.
Qed.

(** C2.  Take any run of the pipeline, any point in it, and two calls of
    [searchHeroes] made by then: call [i], and a later call [j] (for [t2]).
    Every batch the subscriber receives carries the number of the call that
    produced it.  Whatever happens after that point, every batch observed
    from then on comes from call [j] or a later one, never from call [i],
    and all that has been observed by the end is in strictly increasing
    order of the calls.  Moreover, when call [i] was for a term [t1] that is
    not blank, the request it sent is known, and an answer to that request
    arriving at any time from then on changes nothing at all, neither what
    the subscriber has observed nor anything else: the run goes on exactly
    as if no answer had arrived. *)
Theorem superseded_results_are_never_observed
  (evs1 evs2 : list event) (i j : nat) :
  let s1 := run timer_first evs1 init in
  let s2 := run timer_first evs2 s1 in
  i < j ->
  j < List.length (dispatched s1) ->
  StronglySorted lt (tags s2) /\
  (exists later,
     observed s2 = observed s1 ++ later /\
     Forall (fun o => j <= fst o) later /\
     ~ In i (map fst later)) /\
  forall t1,
    nth_error (dispatched s1) i = Some t1 ->
    trim t1 <> [] ->
    nth_error (requests (world s1)) (request_of_call (dispatched s1) i) =
      Some (search_request t1) /\
    forall answer now,
      respond (request_of_call (dispatched s1) i) answer s2 = s2 /\
      run timer_first
        (evs2 ++ [mkEvent now (Respond (request_of_call (dispatched s1) i) answer)])
        s1 =
      run timer_first (evs2 ++ [mkEvent now Idle]) s1.
Proof.
  intros s1 s2 Hij Hj.
  assert (H1 : in_call_order s1)
    by exact (proj1 (run_follows timer_first evs1 init init_in_call_order)).
  destruct (run_follows timer_first evs2 s1 H1)
    as [[Hs _] [_ [later [Hobs Hlater]]]].
  split; [exact Hs |]. split.
  { exists later. split; [exact Hobs |]. split.
    - eapply Forall_impl; [| exact Hlater]. cbn. intros o Ho. lia.
    - rewrite in_map_iff. intros [o [Hio Hin]].
      rewrite Forall_forall in Hlater. specialize (Hlater o Hin). lia. }
  intros t1 Hi Ht1.
  pose proof (sound_run timer_first evs1 init init_sound) as Hs1. fold s1 in Hs1.
  pose proof (sound_run timer_first evs2 s1 Hs1) as Hs2. fold s2 in Hs2.
  split.
  { destruct (nth_error_split _ _ Hi) as [l1 [l2 [E Hl]]].
    rewrite (sound_requests _ Hs1), E, <- Hl, request_of_call_split.
    rewrite filter_app, map_app. cbn. unfold nonblank at 2.
    rewrite (trim_nonblank_truthy _ Ht1). cbn.
    rewrite nth_error_app2 by (rewrite length_map; lia).
    rewrite length_map, Nat.sub_diag. reflexivity. }
  intros answer now.
  destruct (run_dispatched evs2 s1) as [more Hmore]. fold s2 in Hmore.
  split.
  { exact (superseded_request_is_ignored s2 (dispatched s1) more i j t1 answer
             Hs2 Hmore Hij Hj Hi Ht1). }
  rewrite !run_app. fold s2. cbn [run fold_left]. unfold step. cbn [at_ act].
  rewrite (alive_live _ s2 (sound_alive _ Hs2)).
  pose proof (sound_advance timer_first now s2 Hs2) as Ha.
  rewrite !(alive_live _ _ (sound_alive _ Ha)).
  destruct (advance_dispatched now s2) as [m2 Hm2].
  cbn [perform].
  apply (superseded_request_is_ignored (advance timer_first now s2)
           (dispatched s1) (more ++ m2) i j t1 answer Ha);
    [rewrite Hm2, Hmore, app_assoc; reflexivity | assumption ..].
Qed.

End Supersede.

Lemma superseded_results_are_never_observed_witness :
  0 < 1 /\
  1 < List.length (dispatched (run (fun _ => false) ba_then_bat init)) /\
  nth_error (dispatched (run (fun _ => false) ba_then_bat init)) 0 =
    Some (lit "ba") /\
  trim (lit "ba") <> [] /\
  StronglySorted lt
    (tags (run (fun _ => false) late_answers
             (run (fun _ => false) ba_then_bat init))) /\
  nth_error (requests (world (run (fun _ => false) ba_then_bat init)))
    (request_of_call (dispatched (run (fun _ => false) ba_then_bat init)) 0) =
    Some (search_request (lit "ba")) /\
  run (fun _ => false)
    ([] ++ [mkEvent 800
              (Respond
                 (request_of_call
                    (dispatched (run (fun _ => false) ba_then_bat init)) 0)
                 (Next [1; 2]))])
    (run (fun _ => false) ba_then_bat init) =
  run (fun _ => false) ([] ++ [mkEvent 800 Idle])
    (run (fun _ => false) ba_then_bat init).
Proof.
  assert (H01 : 0 < 1) by lia.
  assert (H1 : 1 < List.length (dispatched (run (fun _ => false) ba_then_bat init)))
    by (vm_compute; lia).
  assert (Hi : nth_error (dispatched (run (fun _ => false) ba_then_bat init)) 0 =
               Some (lit "ba")) by reflexivity.
  assert (Ht : trim (lit "ba") <> []) by (vm_compute; discriminate).
  split; [exact H01 |]. split; [exact H1 |]. split; [exact Hi |].
  split; [exact Ht |].
  destruct (superseded_results_are_never_observed (fun _ => false)
              ba_then_bat late_answers 0 1 H01 H1) as [Hs _].
  split; [exact Hs |].
  destruct (superseded_results_are_never_observed (fun _ => false)
              ba_then_bat [] 0 1 H01 H1) as [_ [_ Hreq]].
  destruct (Hreq (lit "ba") Hi Ht) as [Hr Hans].
  split; [exact Hr |].
  exact (proj2 (Hans (Next [1; 2]) 800%N)).
Defined.

(* ================================================================= *)
(** * Ids that are not small integers *)

(** [getHero(1e21)] and [getHero(NaN)]: the URL and the failure message
    carry the number as the template literal renders it. *)
Example getHero_renders_any_number :
  requests (snd (subscribe (HeroService.getHero (mkNumber (lit "1e+21"))) emptyWorld)) =
    [mkRequest GET (lit "api/heroes/1e+21") None false] /\
  messages
    (snd (exchange (HeroService.getHero (mkNumber (lit "1e+21")))
            (Err (mkError (lit "Not Found"))) emptyWorld)) =
    [lit "HeroService: getHero id=1e+21 failed: Not Found"] /\
  requests (snd (subscribe (HeroService.getHero (mkNumber (lit "NaN"))) emptyWorld)) =
    [mkRequest GET (lit "api/heroes/NaN") None false].
Proof. repeat split. Qed.

(** [deleteHero(0.5)] and [deleteHero] of an entity whose id is 1e21. *)
Example deleteHero_renders_any_number :
  requests
    (snd (subscribe (deleteHero roster (inr (mkNumber (lit "0.5")))) emptyWorld)) =
    [mkRequest DELETE (lit "api/heroes/0.5") None true] /\
  requests
    (snd (subscribe
            (deleteHero (fun _ => mkHero (Some (mkNumber (lit "1e+21"))) (lit "Nova"))
               (inl 1)) emptyWorld)) =
    [mkRequest DELETE (lit "api/heroes/1e+21") None true].
Proof. split; reflexivity. Qed.
